(** * go-termfmt: a shallow embedding of the layout and formatting code

    The development follows the Go sources of the package [termfmt]:
    - [formatter.go]  : [TerminalOptions], [DefaultOptions];
    - [components.go] : [Box], [Table], [BarChart], [TreeView], [ProgressBar];
    - the style file  : [getEmojiMap], [GetEmoji], [GetSymbol],
                        [CreateConfidenceBar], [supportsEmoji];
    - [terminal.go]   : [formatStringValue], [Format].

    Conventions.
    - A Go [string] is a sequence of bytes: it is a [string] of Rocq, whose
      characters are bytes; a glyph such as "─" is the three bytes of its
      UTF-8 encoding, and [len] counts bytes.
    - A Go [int] is a 64-bit integer, kept in [Z]; the subtractions on
      caller-supplied integers go through [wrap64].
    - A Go [float64] is a primitive binary64 float of Rocq.
    - A run-time panic is the [Panic] outcome of the [result] monad.
    - A [strings.Builder] is the string written so far, passed along.
    - A [*TerminalOptions] is a record: the pointer is not nil.
    - A slice of [TreeItem] is a finite tree: an inductive type.
    - The environment variables read by [supportsEmoji] are an argument,
      [Env], of the functions that depend on them. *)

From Stdlib Require Import ZArith Lia Floats SpecFloat DecimalString Ascii.
From stdpp Require Import base strings list sorting gmap.

Open Scope Z_scope.

(** ** Outcomes: a value or a run-time panic *)

Inductive result (A : Type) : Type :=
| Ok (a : A)
| Panic (msg : string).
Arguments Ok {A} a.
Arguments Panic {A} msg.

#[global] Instance result_ret : MRet result := fun A a => Ok a.
#[global] Instance result_bind : MBind result := fun A B f m =>
  match m with
  | Ok a => f a
  | Panic msg => Panic msg
  end.

Definition is_Ok {A} (r : result A) : Prop := exists a, r = Ok a.

(** ** Go strings *)

Module GoString.

Definition nl : ascii := "010"%char.
Definition NL : string := String nl "".
Definition dquote : ascii := "034"%char.
Definition backslash : ascii := "092"%char.

(** [len(s)]: the number of bytes. *)
Definition len (s : string) : Z := Z.of_nat (String.length s).

Fixpoint repeat_nat (s : string) (n : nat) : string :=
  match n with
  | O => ""
  | S n' => s +:+ repeat_nat s n'
  end.

(** [strings.Repeat]: panics on a negative count.  (Its second panic,
    on an output longer than the largest [int], needs a string of more
    than 2^63-1 bytes and is outside the model, as is the exhaustion of
    memory.) *)
Definition Repeat (s : string) (count : Z) : result string :=
  if count <? 0 then Panic "strings: negative Repeat count"
  else Ok (repeat_nat s (Z.to_nat count)).

(** [strings.Split(s, "\n")]: the result is never empty. *)
Fixpoint Split_nl (s : string) : list string :=
  match s with
  | EmptyString => [""%string]
  | String c s' =>
      if Ascii.eqb c nl then ""%string :: Split_nl s'
      else match Split_nl s' with
           | h :: t => String c h :: t
           | [] => [String c ""]
           end
  end.

(** [strings.TrimRight(s, "\n")]: drops every trailing newline. *)
Fixpoint TrimRight_nl (s : string) : string :=
  match s with
  | EmptyString => ""
  | String c s' =>
      match TrimRight_nl s' with
      | EmptyString => if Ascii.eqb c nl then "" else String c ""
      | t => String c t
      end
  end.

(** [strings.Contains]. *)
Fixpoint Contains (s substr : string) : bool :=
  String.prefix substr s ||
  match s with
  | EmptyString => false
  | String _ s' => Contains s' substr
  end.

(** [s[:n]] for [0 <= n <= len(s)] (a slice out of range panics). *)
Definition slice_to (s : string) (n : Z) : result string :=
  if (n <? 0) || (len s <? n) then Panic "slice bounds out of range"
  else Ok (String.substring 0 (Z.to_nat n) s).

(** Bytes of a string, as numbers. *)
Fixpoint bytes (s : string) : list Z :=
  match s with
  | EmptyString => []
  | String c s' => Z.of_nat (nat_of_ascii c) :: bytes s'
  end.

(** [utf8.RuneCountInString] on well-formed UTF-8: every byte that is
    not a continuation byte (10xxxxxx) starts one rune. *)
Definition is_continuation (b : Z) : bool := (128 <=? b) && (b <? 192).

Definition runeCount (s : string) : Z :=
  Z.of_nat (length (filter (fun b => is_continuation b = false) (bytes s))).

(** No byte above 0x7E. *)
Definition ascii_only (s : string) : Prop :=
  Forall (fun b => b <= 126) (bytes s).

Definition concat (l : list string) : string := foldr String.append "" l.

End GoString.
Import GoString.

(** ** Go's [int] and [float64] *)

Definition minInt : Z := - 2 ^ 63.
Definition maxInt : Z := 2 ^ 63 - 1.

(** Two's complement wrap-around of 64-bit arithmetic. *)
Definition wrap64 (z : Z) : Z := (z + 2 ^ 63) mod 2 ^ 64 - 2 ^ 63.

Module GoFloat.

(** [float64(n)] for an integer [n]: rounded to nearest, ties to even. *)
Definition of_int (n : Z) : float := SF2Prim (binary_normalize 53 1024 n 0 false).

(** [int(f)]: the fraction is discarded (truncation towards zero).  When
    the value does not fit an [int] the result is left to the
    implementation by the language; the value taken here is the one of
    the amd64 conversion instruction. *)
Definition to_int (f : float) : Z :=
  match Prim2SF f with
  | S754_zero _ => 0
  | S754_finite s m e =>
      let mag := Z.shiftl (Z.pos m) e in
      let v := if s then - mag else mag in
      if (minInt <=? v) && (v <=? maxInt) then v else minInt
  | S754_infinity _ | S754_nan => minInt
  end.

(** The largest integer not above a finite float. *)
Definition floor (f : float) : option Z :=
  match Prim2SF f with
  | S754_zero _ => Some 0
  | S754_finite s m e => Some (Z.shiftl (if s then Z.neg m else Z.pos m) e)
  | S754_infinity _ | S754_nan => None
  end.

End GoFloat.

(** ** The verbs of [fmt.Sprintf] that the package uses *)

Module GoFmt.

(** [%d]. *)
Definition d (n : Z) : string := NilZero.string_of_int (Z.to_int n).

(** Rounding of the non-negative rational [n / 2^k] to the nearest
    integer, ties to even. *)
Definition round_half_even (n : Z) (k : Z) : Z :=
  let den := 2 ^ k in
  let q := n / den in
  let r := n mod den in
  if 2 * r <? den then q
  else if den <? 2 * r then q + 1
  else if Z.even q then q else q + 1.

(** [%.1f]: the exact value, correctly rounded to one decimal. *)
Definition f1 (f : float) : string :=
  match Prim2SF f with
  | S754_nan => "NaN"
  | S754_infinity s => if s then "-Inf" else "+Inf"
  | S754_zero s => (if s then "-" else "") +:+ "0.0"
  | S754_finite s m e =>
      let tenths :=
        if 0 <=? e then 10 * Z.pos m * 2 ^ e
        else round_half_even (10 * Z.pos m) (- e) in
      (if s then "-" else "") +:+ d (tenths / 10) +:+ "." +:+ d (tenths mod 10)
  end.

End GoFmt.

(** ** formatter.go *)

Record TerminalOptions : Type := mkTerminalOptions {
  Color : bool;      (* Enable colored output *)
  Emoji : bool;      (* Enable emoji output *)
  Width : Z;         (* Terminal width for formatting *)
  Compact : bool;    (* Use compact formatting *)
  ShowIcons : bool   (* Show icons/symbols *)
}.

Definition DefaultTerminalWidth : Z := 80.

Definition DefaultOptions : TerminalOptions :=
  {| Color := true; Emoji := true; Width := DefaultTerminalWidth;
     Compact := false; ShowIcons := true |}.

(** The process environment read by [os.Getenv]; an unset variable reads
    as the empty string. *)
Record Env : Type := mkEnv { Getenv : string -> string }.

(** A [strings.Builder]: the text written so far. *)
Definition Builder : Type := string.
Definition WriteString (b : Builder) (s : string) : Builder := b +:+ s.

(** [for i, x := range l { body }], the state threaded through the
    iterations; a panic in the body ends the loop. *)
Fixpoint range_from {A S : Type} (i : Z) (l : list A)
    (body : Z -> A -> S -> result S) (s : S) : result S :=
  match l with
  | [] => Ok s
  | x :: l' => s' ← body i x s; range_from (i + 1) l' body s'
  end.

Definition range {A S : Type} (l : list A)
    (body : Z -> A -> S -> result S) (s : S) : result S :=
  range_from 0 l body s.

(** [len(l)] of a slice. *)
Definition llen {A : Type} (l : list A) : Z := Z.of_nat (length l).

(** [l[i]] and [l[i] = v] on a slice: out of range, a panic. *)
Definition index {A : Type} (l : list A) (i : Z) : result A :=
  if (i <? 0) || (llen l <=? i) then Panic "index out of range"
  else match l !! Z.to_nat i with
       | Some x => Ok x
       | None => Panic "index out of range"
       end.

Definition set_index {A : Type} (l : list A) (i : Z) (v : A) : result (list A) :=
  if (i <? 0) || (llen l <=? i) then Panic "index out of range"
  else Ok (<[Z.to_nat i := v]> l).

(** ** components.go *)

Definition borderPadding : Z := 2.      (* Padding around box borders *)
Definition labelSpacing : Z := 10.      (* Space reserved for labels in bar charts *)
Definition progressSpacing : Z := 20.   (* Space reserved for progress bar metadata *)
Definition tableRowPadding : Z := 2.    (* Extra padding for table rows *)
Definition percentMultiplier : float := 100%float.

(** The longest line: [maxLen] after the first loop of the box functions,
    started from [start]. *)
Definition maxLineLen (start : Z) (lines : list string) : Z :=
  foldl (fun maxLen line => if len line >? maxLen then len line else maxLen)
        start lines.

Definition simpleBox (content : string) : result string :=
  let lines := Split_nl content in
  if llen lines =? 0 then Ok ""%string
  else
    let maxLen := maxLineLen 0 lines in
    let b : Builder := ""%string in
    top ← Repeat "─" (maxLen + borderPadding);
    let b := WriteString b ("┌" +:+ top +:+ "┐" +:+ NL) in
    b ← range lines (fun _ line b =>
           let padding := maxLen - len line in
           pad ← Repeat " " padding;
           Ok (WriteString b ("│ " +:+ line +:+ pad +:+ " │" +:+ NL))) b;
    bottom ← Repeat "─" (maxLen + borderPadding);
    Ok (WriteString b ("└" +:+ bottom +:+ "┘")).

Definition titledBox (title content : string) : result string :=
  let titleLen := len title in
  let lines := Split_nl content in
  let maxLen := maxLineLen (titleLen + borderPadding) lines in
  let b : Builder := ""%string in
  top ← Repeat "═" (maxLen + borderPadding);
  let b := WriteString b ("╔" +:+ top +:+ "╗" +:+ NL) in
  let titlePadding := maxLen - titleLen in
  tpad ← Repeat " " titlePadding;
  let b := WriteString b ("║ " +:+ title +:+ tpad +:+ " ║" +:+ NL) in
  sep ← Repeat "═" (maxLen + borderPadding);
  let b := WriteString b ("╠" +:+ sep +:+ "╣" +:+ NL) in
  b ← range lines (fun _ line b =>
         let padding := maxLen - len line in
         pad ← Repeat " " padding;
         Ok (WriteString b ("║ " +:+ line +:+ pad +:+ " ║" +:+ NL))) b;
  bottom ← Repeat "═" (maxLen + borderPadding);
  Ok (WriteString b ("╚" +:+ bottom +:+ "╝")).

Definition BoxWithOptions (title content : string) (opts : TerminalOptions)
  : result string :=
  if String.eqb title "" then simpleBox content
  else titledBox title content.

Definition Box (title content : string) : result string :=
  BoxWithOptions title content DefaultOptions.

(** The column widths of a table: the first two loops of
    [TableWithOptions]. *)
Definition colWidths (headers : list string) (rows : list (list string))
  : result (list Z) :=
  let colWidths := replicate (length headers) 0 in
  colWidths ← range headers (fun i header cw =>
                 set_index cw i (len header)) colWidths;
  range rows (fun _ row cw =>
    range row (fun i cell cw =>
      if i <? llen cw then
        w ← index cw i;
        if len cell >? w then set_index cw i (len cell) else Ok cw
      else Ok cw) cw) colWidths.

Definition TableWithOptions (headers : list string) (rows : list (list string))
    (opts : TerminalOptions) : result string :=
  if llen headers =? 0 then Ok ""%string
  else
    colWidths ← colWidths headers rows;
    let b : Builder := ""%string in
    (* Header row *)
    let b := WriteString b "│" in
    b ← range headers (fun i header b =>
           w ← index colWidths i;
           let padding := w - len header in
           pad ← Repeat " " padding;
           Ok (WriteString b (" " +:+ header +:+ pad +:+ " │"))) b;
    let b := WriteString b NL in
    (* Separator *)
    let b := WriteString b "├" in
    b ← range colWidths (fun i width b =>
           rule ← Repeat "─" (width + tableRowPadding);
           let b := WriteString b rule in
           Ok (if i <? llen colWidths - 1 then WriteString b "┼" else b)) b;
    let b := WriteString b ("┤" +:+ NL) in
    (* Data rows *)
    b ← range rows (fun _ row b =>
           let b := WriteString b "│" in
           b ← range row (fun i cell b =>
                  if i <? llen colWidths then
                    w ← index colWidths i;
                    let padding := w - len cell in
                    pad ← Repeat " " padding;
                    Ok (WriteString b (" " +:+ cell +:+ pad +:+ " │"))
                  else Ok b) b;
           Ok (WriteString b NL)) b;
    Ok (TrimRight_nl b).

Definition Table (headers : list string) (rows : list (list string))
  : result string :=
  TableWithOptions headers rows DefaultOptions.

(** The bar of a chart line or of a progress bar: the filled glyph
    [filledLength] times, then the empty glyph for the rest of [barWidth]. *)
Definition writeBar (b : Builder) (opts : TerminalOptions)
    (filledLength barWidth : Z) : result Builder :=
  if Emoji opts then
    filled ← Repeat "█" filledLength;
    let b := WriteString b filled in
    empty ← Repeat "░" (wrap64 (barWidth - filledLength));
    Ok (WriteString b empty)
  else
    filled ← Repeat "#" filledLength;
    let b := WriteString b filled in
    empty ← Repeat "-" (wrap64 (barWidth - filledLength));
    Ok (WriteString b empty).

(** [maxValue] and [maxLabelLen] after the first loop of the bar chart,
    over the entries in the order [entries] in which the loop meets them. *)
Definition chartMaxima (entries : list (string * Z)) : Z * Z :=
  foldl (fun '(maxValue, maxLabelLen) '(label, value) =>
           (if value >? maxValue then value else maxValue,
            if len label >? maxLabelLen then len label else maxLabelLen))
        (0, 0) entries.

(** One line of the chart: the body of the second loop. *)
Definition chartLine (opts : TerminalOptions) (maxValue maxLabelLen barWidth : Z)
    (label : string) (value : Z) (b : Builder) : result Builder :=
  let labelPadding := maxLabelLen - len label in
  pad ← Repeat " " labelPadding;
  let b := WriteString b (label +:+ pad) in
  let barLength :=
    GoFloat.to_int (GoFloat.of_int value / GoFloat.of_int maxValue
                    * GoFloat.of_int barWidth)%float in
  let b := WriteString b " │" in
  b ← writeBar b opts barLength barWidth;
  Ok (WriteString b ("│ " +:+ GoFmt.d value +:+ NL)).

(** [BarChartWithOptions] on one run.  A [range] over a Go map meets every
    entry once, in an order that the language leaves open and that may
    change from one loop to the next: [order1] and [order2] are the orders
    of the two loops of this run. *)
Definition BarChartRun (data : gmap string Z) (order1 order2 : list (string * Z))
    (width : Z) (opts : TerminalOptions) : result string :=
  if Z.of_nat (size data) =? 0 then Ok ""%string
  else
    let '(maxValue, maxLabelLen) := chartMaxima order1 in
    if maxValue =? 0 then Ok ""%string
    else
      let b : Builder := ""%string in
      let barWidth := wrap64 (wrap64 (width - maxLabelLen) - labelSpacing) in
      b ← range order2 (fun _ '(label, value) b =>
             chartLine opts maxValue maxLabelLen barWidth label value b) b;
      Ok (TrimRight_nl b).

(** An order in which a [range] may meet the entries of [data]. *)
Definition iteration_order (data : gmap string Z) (order : list (string * Z))
  : Prop :=
  order ≡ₚ map_to_list data.

(** The outcomes of [BarChartWithOptions(data, width, opts)]. *)
Definition BarChartWithOptions (data : gmap string Z) (width : Z)
    (opts : TerminalOptions) (out : result string) : Prop :=
  exists order1 order2,
    iteration_order data order1 /\ iteration_order data order2 /\
    out = BarChartRun data order1 order2 width opts.

Definition BarChart (data : gmap string Z) (width : Z) (out : result string)
  : Prop :=
  BarChartWithOptions data width DefaultOptions out.

(** TreeItem represents an item in a tree view. *)
#[warnings="-register-all"]
Inductive TreeItem : Type :=
  mkTreeItem (Label : string) (Value : string) (Children : list TreeItem)
             (Last : bool).

Definition Label (it : TreeItem) : string :=
  match it with mkTreeItem l _ _ _ => l end.
Definition Value (it : TreeItem) : string :=
  match it with mkTreeItem _ v _ _ => v end.
Definition Children (it : TreeItem) : list TreeItem :=
  match it with mkTreeItem _ _ c _ => c end.
Definition Last (it : TreeItem) : bool :=
  match it with mkTreeItem _ _ _ l => l end.

(** [for i, x := range l { body }] with a body that cannot panic, from
    index [i] on. *)
Definition loop_from {A S : Type} (body : Z -> A -> S -> S)
  : Z -> list A -> S -> S :=
  fix go (i : Z) (l : list A) (s : S) : S :=
    match l with
    | [] => s
    | x :: l' => go (i + 1) l' (body i x s)
    end.

(** One iteration of the loop of [renderTreeItems]: the item at index [i]
    of a slice of [n] items, under [prefix]; the children are rendered by
    the recursive call, which is the same loop over them. *)
Fixpoint renderTreeItem (n : Z) (prefix : string) (i : Z) (item : TreeItem)
    (b : Builder) : Builder :=
  match item with
  | mkTreeItem label value children _ =>
      let isLast := i =? n - 1 in
      (* Choose prefix based on position *)
      let '(itemPrefix, childPrefix) :=
        if isLast then ("└─ ", "   ")%string else ("├─ ", "│  ")%string in
      (* Write the item *)
      let b := WriteString b (prefix +:+ itemPrefix +:+ label) in
      let b := if negb (String.eqb value "")
               then WriteString b (": " +:+ value) else b in
      let b := WriteString b NL in
      (* Render children *)
      if llen children >? 0 then
        loop_from (renderTreeItem (llen children) (prefix +:+ childPrefix))
                  0 children b
      else b
  end.

(** renderTreeItems recursively renders tree items. *)
Definition renderTreeItems (b : Builder) (items : list TreeItem)
    (prefix : string) : Builder :=
  loop_from (renderTreeItem (llen items) prefix) 0 items b.

Definition TreeViewWithOptions (items : list TreeItem) (opts : TerminalOptions)
  : string :=
  let b : Builder := ""%string in
  let b := renderTreeItems b items "" in
  TrimRight_nl b.

Definition TreeView (items : list TreeItem) : string :=
  TreeViewWithOptions items DefaultOptions.

(** [percentage] of the progress bar, after the comparison with 1.0. *)
Definition progressPercentage (current total : Z) : float :=
  let percentage := (GoFloat.of_int current / GoFloat.of_int total)%float in
  if (1 <? percentage)%float then 1%float else percentage.

Definition ProgressBarWithOptions (current total width : Z)
    (opts : TerminalOptions) : result string :=
  if total <=? 0 then Ok ""%string
  else
    let percentage := progressPercentage current total in
    let barWidth := wrap64 (width - progressSpacing) in
    let filledWidth := GoFloat.to_int (percentage * GoFloat.of_int barWidth)%float in
    let b : Builder := ""%string in
    let b := WriteString b "[" in
    b ← writeBar b opts filledWidth barWidth;
    Ok (WriteString b ("] " +:+ GoFmt.f1 (percentage * percentMultiplier)%float
                       +:+ "% (" +:+ GoFmt.d current +:+ "/" +:+ GoFmt.d total
                       +:+ ")")).

Definition ProgressBar (current total width : Z) : result string :=
  ProgressBarWithOptions current total width DefaultOptions.

(** ** The style file: symbols and the confidence bar *)

(** ConfidenceBarLength is the standard length for confidence bars. *)
Definition ConfidenceBarLength : Z := 10.

(** The entries of the map literal of [getEmojiMap]: key, then the pair
    [emoji, fallback]. *)
Definition emojiEntries : list (string * (string * string)) :=
  [
    ("error", ("❌", "[ERR]"));
    ("warning", ("⚠️", "[WRN]"));
    ("info", ("ℹ️", "[INF]"));
    ("success", ("✅", "[OK]"));
    ("insight", ("💡", "[INS]"));
    ("pattern", ("🔍", "[PAT]"));
    ("statistics", ("📊", "[STATS]"));
    ("recommendations", ("📋", "[REC]"));
    ("rocket", ("🚀", "[LOG]"));
    ("error_pattern", ("🔴", "[ERR]"));
    ("anomaly_pattern", ("🟡", "[ANO]"));
    ("perf_pattern", ("⚠️", "[PRF]"));
    ("security_pattern", ("🔒", "[SEC]"));
    ("help", ("❓", "[?]"));
    ("target", ("🎯", "[>]"));
    ("brain", ("🧠", "[AI]"));
    ("tag", ("🏷️", "[TAG]"));
    ("scale", ("⚖️", "[BAL]"));
    ("door", ("🚪", "[EXIT]"));
    ("number", ("🔢", "[#]"));
    ("patterns", ("🔍", "[PAT]"));
    ("insights", ("💡", "[INS]"));
    ("clock", ("⏰", "[TIME]"));
    ("chart", ("📊", "[CHART]"));
    ("list", ("📝", "[LIST]"))
  ]%string.

(** getEmojiMap returns emoji mappings with fallbacks. *)
Definition getEmojiMap : gmap string (string * string) :=
  list_to_map emojiEntries.

(** supportsEmoji checks if the terminal likely supports emoji. *)
Definition supportsEmoji (env : Env) : bool :=
  let term := Getenv env "TERM" in
  if Contains term "256color" then true
  else if negb (String.eqb (Getenv env "TERM_PROGRAM") "") then true
  else false.

(** GetEmoji returns emoji or fallback based on options. *)
Definition GetEmoji (env : Env) (key : string) (opts : TerminalOptions) : string :=
  match getEmojiMap !! key with
  | Some mapping =>
      if negb (Emoji opts) then mapping.2          (* fallback *)
      else if negb (supportsEmoji env) then mapping.2  (* fallback *)
      else mapping.1                               (* emoji *)
  | None => "[?]"                                  (* unknown key *)
  end.

(** GetSymbol is an alias for GetEmoji for compatibility. *)
Definition GetSymbol (env : Env) (key : string) (opts : TerminalOptions) : string :=
  GetEmoji env key opts.

(** A rune is a code point; [WriteRune] appends its UTF-8 encoding. *)
Definition byte_of (z : Z) : ascii := ascii_of_nat (Z.to_nat z).

Definition utf8_encode (r : Z) : string :=
  if r <? 128 then String (byte_of r) ""
  else if r <? 2048 then
    String (byte_of (192 + Z.shiftr r 6))
      (String (byte_of (128 + Z.land r 63)) "")
  else if r <? 65536 then
    String (byte_of (224 + Z.shiftr r 12))
      (String (byte_of (128 + Z.land (Z.shiftr r 6) 63))
         (String (byte_of (128 + Z.land r 63)) ""))
  else
    String (byte_of (240 + Z.shiftr r 18))
      (String (byte_of (128 + Z.land (Z.shiftr r 12) 63))
         (String (byte_of (128 + Z.land (Z.shiftr r 6) 63))
            (String (byte_of (128 + Z.land r 63)) ""))).

Definition WriteRune (b : Builder) (r : Z) : Builder := b +:+ utf8_encode r.

Definition rune_full_block : Z := 9608.   (* U+2588, the filled cell *)
Definition rune_light_shade : Z := 9617.  (* U+2591, the empty cell *)
Definition rune_hash : Z := 35.
Definition rune_minus : Z := 45.

(** The glyphs of the confidence bar: [filled, empty]. *)
Definition confidenceGlyphs (env : Env) (opts : TerminalOptions) : Z * Z :=
  if Emoji opts && supportsEmoji env
  then (rune_full_block, rune_light_shade)
  else (rune_hash, rune_minus).

(** [barLength] of the confidence bar. *)
Definition confidenceBarLength (confidence : float) : Z :=
  GoFloat.to_int (confidence * GoFloat.of_int ConfidenceBarLength)%float.

(** CreateConfidenceBar creates ASCII confidence bar. *)
Definition CreateConfidenceBar (env : Env) (confidence : float)
    (opts : TerminalOptions) : string :=
  let barLength := confidenceBarLength confidence in
  let '(filled, empty) := confidenceGlyphs env opts in
  let b : Builder := ""%string in
  let b := if negb (Emoji opts) then WriteString b "[" else b in
  let b := foldl (fun b i =>
                    if i <? barLength then WriteRune b filled
                    else WriteRune b empty)
                 b (seqZ 0 ConfidenceBarLength) in
  let b := if negb (Emoji opts) then WriteString b "]" else b in
  b.

(** ** terminal.go *)

(** MaxFieldLength is the maximum length for field values before
    truncation. *)
Definition MaxFieldLength : Z := 50.

(** [fmt.Sprintf("%q", s)] is [strconv.Quote] of the Go library: a double
    quote, the bytes of [s] escaped, a double quote.  A byte below 0x80 is
    one rune, and its rendering is fixed: the quote and the backslash get a
    backslash, the printable ones (0x20..0x7E) stand for themselves, the
    others are written as an escape.  From the first byte at or above 0x80
    on, the rendering needs the UTF-8 decoder and the Unicode tables of
    the library: it is the parameter [quoteFromRune]. *)
Module Quote.

Definition lowerhex (n : Z) : ascii :=
  byte_of (if n <? 10 then 48 + n else 87 + n).

Definition escapeASCII (c : ascii) : string :=
  let r := Z.of_nat (nat_of_ascii c) in
  if Ascii.eqb c dquote || Ascii.eqb c backslash then
    String backslash (String c "")
  else if (32 <=? r) && (r <=? 126) then String c ""
  else if r =? 7 then String backslash "a"
  else if r =? 8 then String backslash "b"
  else if r =? 12 then String backslash "f"
  else if r =? 10 then String backslash "n"
  else if r =? 13 then String backslash "r"
  else if r =? 9 then String backslash "t"
  else if r =? 11 then String backslash "v"
  else String backslash
         (String "x" (String (lowerhex (Z.shiftr r 4))
                        (String (lowerhex (Z.land r 15)) ""))).

Section WithLibrary.
Variable quoteFromRune : string -> string.

Fixpoint escape (s : string) : string :=
  match s with
  | EmptyString => ""
  | String c s' =>
      if Z.of_nat (nat_of_ascii c) <? 128
      then escapeASCII c +:+ escape s'
      else quoteFromRune s
  end.

Definition Sprintf_q (s : string) : string :=
  String dquote (escape s +:+ String dquote "").
End WithLibrary.

(** A string that [%q] leaves as it is between the quotes: printable
    ASCII without quote and backslash. *)
Definition plain_byte (c : ascii) : bool :=
  let r := Z.of_nat (nat_of_ascii c) in
  (32 <=? r) && (r <=? 126) && negb (Ascii.eqb c dquote)
  && negb (Ascii.eqb c backslash).

Fixpoint plain (s : string) : bool :=
  match s with
  | EmptyString => true
  | String c s' => plain_byte c && plain s'
  end.

End Quote.

(** formatStringValue formats string values with truncation. *)
Definition formatStringValue (quoteFromRune : string -> string) (v : string)
  : result string :=
  let str := v in
  str ← (if len str >? MaxFieldLength then
           head ← slice_to str (MaxFieldLength - 3);
           Ok (head +:+ "...")
         else Ok str);
  Ok (Quote.Sprintf_q quoteFromRune str).

(** ColorProfile represents a color scheme. *)
Record ColorProfile : Type := mkColorProfile {
  cpError : string; cpWarning : string; cpInfo : string;
  cpSuccess : string; cpAccent : string; cpMuted : string
}.

(** terminalFormatter formats data for terminal display. *)
Record terminalFormatter : Type := mkTerminalFormatter {
  options : TerminalOptions;
  colorProfile : ColorProfile
}.

(** The dynamic values that [Format] receives in an [interface{}], by the
    cases of its type switch. *)
#[warnings="-register-all"]
Inductive GoValue (Other : Type) : Type :=
| GoNil                                             (* the nil interface *)
| GoMap (entries : list (string * GoValue Other))   (* map[string]interface{} *)
| GoSlice (elems : list (GoValue Other))            (* []interface{} *)
| GoStr (s : string)                                (* string *)
| GoOther (v : Other).                              (* any other type *)
Arguments GoNil {Other}.
Arguments GoMap {Other} entries.
Arguments GoSlice {Other} elems.
Arguments GoStr {Other} s.
Arguments GoOther {Other} v.

(** [data == nil]. *)
Definition isNil {Other : Type} (data : GoValue Other) : bool :=
  match data with
  | GoNil => true
  | _ => false
  end.

(** A byte slice: [None] is the nil slice. *)
Definition bytes_slice : Type := option string.
(** An [error]: [None] is nil. *)
Definition error : Type := option string.

Section Format.
(** Values of the other dynamic types (structs, pointers, numbers, ...). *)
Variable Other : Type.
(** The renderers of the cases, which write to the builder: [formatMap],
    [formatSlice], [formatStruct] (by reflection; it may return an
    error), and [json.MarshalIndent] of the library. *)
Variable formatMap :
  terminalFormatter -> Builder -> list (string * GoValue Other) -> string -> Builder.
Variable formatSlice :
  terminalFormatter -> Builder -> list (GoValue Other) -> Builder.
Variable formatStruct :
  terminalFormatter -> Builder -> GoValue Other -> Builder * error.
Variable MarshalIndent : GoValue Other -> string -> string -> bytes_slice * error.

(** Format formats the given data for terminal display. *)
Definition Format (f : terminalFormatter) (data : GoValue Other)
  : bytes_slice * error :=
  if isNil data then (Some ""%string, None)
  else
    let output : Builder := ""%string in
    (* Handle different data types *)
    match data with
    | GoMap v => (Some (formatMap f output v ""), None)
    | GoSlice v => (Some (formatSlice f output v), None)
    | GoStr v => (Some (WriteString output v), None)
    | _ =>
        (* Use reflection for struct types *)
        let '(output, err) := formatStruct f output data in
        match err with
        | Some _ =>
            (* Fallback to JSON representation *)
            let '(jsonData, jsonErr) := MarshalIndent data "" "  " in
            match jsonErr with
            | Some e => (None, Some ("failed to format data: " +:+ e)%string)
            | None => (Some (WriteString output (default ""%string jsonData)), None)
            end
        | None => (Some output, None)
        end
    end.
End Format.

(** ** Definitions used to state the properties *)

(** The text of a bar of [n] cells of which the first [k] are filled. *)
Definition cells (filled empty : string) (k n : Z) : string :=
  repeat_nat filled (Z.to_nat k) +:+ repeat_nat empty (Z.to_nat (n - k)).

Definition clamp (lo hi x : Z) : Z := Z.min (Z.max x lo) hi.

(** The confidence bar in the words of the specification: ten cells of
    which floor(confidence * 10) are filled; with emoji enabled the glyphs
    "█" and "░" and no brackets, else "#" and "-" between "[" and "]". *)
Definition spec_ConfidenceBar (confidence : float) (opts : TerminalOptions)
    (out : string) : Prop :=
  exists k,
    GoFloat.floor (confidence * 10)%float = Some k /\
    out = if Emoji opts then cells "█" "░" k 10
          else "[" +:+ cells "#" "-" k 10 +:+ "]".

(** The texts appended by a loop [for i, x := range l] whose body appends
    [text i x], from index [i] on. *)
Fixpoint texts_from {A : Type} (text : Z -> A -> string) (i : Z) (l : list A)
  : list string :=
  match l with
  | [] => []
  | x :: l' => text i x :: texts_from text (i + 1) l'
  end.

(** A string with a newline byte. *)
Fixpoint has_nl (s : string) : bool :=
  match s with
  | EmptyString => false
  | String c s' => Ascii.eqb c nl || has_nl s'
  end.

(** The rows of the box without title around [lines], for the interior
    width [maxLen]: the borders and the row of a content line. *)
Definition boxTop (maxLen : Z) : string :=
  "┌" +:+ repeat_nat "─" (Z.to_nat (maxLen + 2)) +:+ "┐".
Definition boxBottom (maxLen : Z) : string :=
  "└" +:+ repeat_nat "─" (Z.to_nat (maxLen + 2)) +:+ "┘".
Definition boxPadded (maxLen : Z) (line : string) : string :=
  line +:+ repeat_nat " " (Z.to_nat (maxLen - len line)).
Definition boxRow (maxLen : Z) (line : string) : string :=
  "│ " +:+ boxPadded maxLen line +:+ " │".

(** The widths after one row of the second loop of the table: a cell
    widens the column at its index, when there is such a column. *)
Fixpoint widenRow (widths : list Z) (row : list string) : list Z :=
  match widths, row with
  | w :: widths', cell :: row' => Z.max w (len cell) :: widenRow widths' row'
  | _, _ => widths
  end.

(** The cells of the column [i]: of every row that has one, the cell at
    index [i]. *)
Definition columnCells (i : nat) (rows : list (list string)) : list string :=
  omap (fun row : list string => row !! i) rows.

(** The larger of the header length and of the lengths of all cells of the
    column. *)
Definition columnWidth (i : nat) (header : string) (rows : list (list string)) : Z :=
  foldr Z.max (len header) (len <$> columnCells i rows).

(** The rows of a table for given column widths: a cell padded to the
    width of its column between " " and " │"; a row, its cells matched to
    the columns by index; the rule under the header. *)
Definition tableCell (w : Z) (cell : string) : string :=
  " " +:+ cell +:+ repeat_nat " " (Z.to_nat (w - len cell)) +:+ " │".
Definition tableRow (widths : list Z) (row : list string) : string :=
  "│" +:+ concat (zip_with tableCell widths row).
Fixpoint tableRuleSegments (widths : list Z) : list string :=
  match widths with
  | [] => []
  | [w] => [repeat_nat "─" (Z.to_nat (w + 2))]
  | w :: widths' => (repeat_nat "─" (Z.to_nat (w + 2)) +:+ "┼") :: tableRuleSegments widths'
  end.
Definition tableRule (widths : list Z) : string :=
  "├" +:+ concat (tableRuleSegments widths) +:+ "┤".

(** The width at index [i] of the slice of widths, and the texts that the
    loops of the table append at index [i]. *)
Definition widthAt (cw : list Z) (i : Z) : Z := default 0 (cw !! Z.to_nat i).
Definition cellText (cw : list Z) (i : Z) (cell : string) : string :=
  if i <? llen cw then tableCell (widthAt cw i) cell else "".
Definition ruleText (cw : list Z) (i : Z) (w : Z) : string :=
  repeat_nat "─" (Z.to_nat (w + 2)) +:+ (if i <? llen cw - 1 then "┼" else "").

(** The text of a table with the column widths [widths]. *)
Definition tableText (widths : list Z) (headers : list string)
    (rows : list (list string)) : string :=
  TrimRight_nl
    (tableRow widths headers +:+ NL +:+ tableRule widths +:+ NL
     +:+ concat ((fun row => tableRow widths row +:+ NL) <$> rows)).

(** The cells of a row fit the widths [widths]. *)
Definition row_fits (widths : list Z) (row : list string) : Prop :=
  forall (j : nat) (cell : string) (w : Z),
    row !! j = Some cell -> widths !! j = Some w -> len cell <= w.

(** The tree drawn in the words of the specification: at each level every
    item but the last sibling has the branch "├─ " and its subtree the
    continuation "│  "; the last sibling has "└─ " and "   ".  The label is
    always printed, the value after ": " when it is not empty.  The [Last]
    field is not read. *)
Definition spec_itemText (label value : string) : string :=
  label +:+ (if String.eqb value "" then "" else ": " +:+ value).

Definition is_nil {A : Type} (l : list A) : bool :=
  match l with
  | [] => true
  | _ => false
  end.

Fixpoint spec_drawItem (prefix : string) (lastSibling : bool) (item : TreeItem)
  : string :=
  match item with
  | mkTreeItem label value children _ =>
      let branch := if lastSibling then "└─ " else "├─ " in
      let continuation := if lastSibling then "   " else "│  " in
      prefix +:+ branch +:+ spec_itemText label value +:+ NL
      +:+ (fix drawSiblings (items : list TreeItem) : string :=
             match items with
             | [] => ""
             | it :: rest =>
                 spec_drawItem (prefix +:+ continuation) (is_nil rest) it
                 +:+ drawSiblings rest
             end) children
  end.

Fixpoint spec_drawItems (prefix : string) (items : list TreeItem) : string :=
  match items with
  | [] => ""
  | it :: rest =>
      spec_drawItem prefix (is_nil rest) it +:+ spec_drawItems prefix rest
  end.

(** The item with every [Last] field, its own and those below, reset. *)
Fixpoint eraseLast (item : TreeItem) : TreeItem :=
  match item with
  | mkTreeItem label value children _ =>
      mkTreeItem label value (map eraseLast children) false
  end.

(** Two sequences of items that differ at most in [Last] fields. *)
Definition differ_only_in_Last (items1 items2 : list TreeItem) : Prop :=
  map eraseLast items1 = map eraseLast items2.







(** [ascii_only] is decided by looking at the bytes. *)
#[global] Instance ascii_only_dec (s : string) : Decision (ascii_only s).
Proof. unfold ascii_only. apply _. Defined.

(** * Properties *)

(** ** Strings *)

Section StringFacts.

(** stdpp keeps [+:+] folded under [simpl]: its two equations. *)
Lemma str_app_nil (b : string) : "" +:+ b = b.
Proof. reflexivity. Qed.

Lemma str_app_cons (c : ascii) (a b : string) :
  String c a +:+ b = String c (a +:+ b).
Proof. reflexivity. Qed.

Lemma str_length_app (a b : string) :
  String.length (a +:+ b) = (String.length a + String.length b)%nat.
Proof.
  induction a as [|c a IH]; [reflexivity|].
  rewrite str_app_cons. simpl. now rewrite IH.
Qed.

Lemma len_app (a b : string) : len (a +:+ b) = len a + len b.
Proof. unfold len. rewrite str_length_app. lia. Qed.

Lemma len_nonneg (s : string) : 0 <= len s.
Proof. unfold len. lia. Qed.

Lemma str_app_assoc (a b c : string) : (a +:+ b) +:+ c = a +:+ (b +:+ c).
Proof.
  induction a as [|x a IH]; [reflexivity|].
  rewrite !str_app_cons. now rewrite IH.
Qed.

Lemma str_app_empty_r (a : string) : a +:+ "" = a.
Proof.
  induction a as [|x a IH]; [reflexivity|].
  rewrite str_app_cons. now rewrite IH.
Qed.

Lemma length_repeat_nat (s : string) (n : nat) :
  String.length (repeat_nat s n) = (n * String.length s)%nat.
Proof.
  induction n as [|n IH]; [reflexivity|].
  simpl. rewrite str_length_app, IH. lia.
Qed.

Lemma Repeat_nonneg (s : string) (n : Z) :
  0 <= n -> Repeat s n = Ok (repeat_nat s (Z.to_nat n)).
Proof. intros H. unfold Repeat. destruct (Z.ltb_spec n 0); [lia | reflexivity]. Qed.

Lemma Repeat_negative (s : string) (n : Z) :
  n < 0 -> Repeat s n = Panic "strings: negative Repeat count".
Proof. intros H. unfold Repeat. destruct (Z.ltb_spec n 0); [reflexivity | lia]. Qed.

Lemma bytes_app (a b : string) : bytes (a +:+ b) = bytes a ++ bytes b.
Proof.
  induction a as [|x a IH]; [reflexivity|].
  rewrite str_app_cons. simpl. now rewrite IH.
Qed.

Lemma runeCount_app (a b : string) : runeCount (a +:+ b) = runeCount a + runeCount b.
Proof.
  unfold runeCount. rewrite bytes_app, filter_app, length_app. lia.
Qed.

End StringFacts.

(** ** Progress bar and bar chart: inputs on which the call panics *)

Section Panics.

Lemma iteration_order_singleton (k : string) (v : Z) (order : list (string * Z)) :
  iteration_order {[ k := v ]} order -> order = [(k, v)].
Proof.
  unfold iteration_order. rewrite map_to_list_singleton.
  intros H. now apply Permutation_singleton_r.
Qed.

(** A degenerate total is answered by the empty string. *)
Lemma ProgressBar_nonpositive_total (current total width : Z) (opts : TerminalOptions) :
  total <= 0 -> ProgressBarWithOptions current total width opts = Ok ""%string.
Proof.
  intros H. unfold ProgressBarWithOptions.
  destruct (Z.leb_spec total 0); [reflexivity | lia].
Qed.

(** The bar panics as soon as the filled width is negative. *)
Lemma writeBar_negative (b : Builder) (opts : TerminalOptions) (filled barWidth : Z) :
  filled < 0 -> writeBar b opts filled barWidth = Panic "strings: negative Repeat count".
Proof.
  intros H. unfold writeBar.
  destruct (Emoji opts); rewrite (Repeat_negative _ filled) by assumption; reflexivity.
Qed.

End Panics.

(** C1: the layout functions without an error result are claimed total on
    every input.  Evaluation of the code at degenerate inputs: a progress
    bar narrower than the 20 reserved columns, a progress bar with a
    negative [current], and a bar chart narrower than label plus the 10
    reserved columns all end in the panic of [strings.Repeat] on a negative
    count, whatever the options and whatever the order of the map. *)
Theorem layout_functions_panic_on_degenerate_input :
  (forall opts, ProgressBarWithOptions 50 100 10 opts
                = Panic "strings: negative Repeat count")
  /\ (forall opts, ProgressBarWithOptions (-5) 100 60 opts
                   = Panic "strings: negative Repeat count")
  /\ (forall opts out, BarChartWithOptions {[ "a"%string := 1 ]} 5 opts out ->
                       out = Panic "strings: negative Repeat count").
Proof.
  split; [|split].
  - intros opts. unfold ProgressBarWithOptions. cbn [Z.leb Z.compare].
    rewrite writeBar_negative; [reflexivity | now vm_compute].
  - intros opts. unfold ProgressBarWithOptions. cbn [Z.leb Z.compare].
    rewrite writeBar_negative; [reflexivity | now vm_compute].
  - intros opts out (order1 & order2 & H1 & H2 & ->).
    apply iteration_order_singleton in H1, H2. subst order1 order2.
    destruct opts as [c [] w k i]; now vm_compute.
Qed.

(** C2: the percentage of the progress bar is claimed to be clamped to
    [0, 1], so that a negative [current] gives an all-empty bar.  The code
    only compares with 1.0: at current = -5, total = 100, width = 60 the
    percentage stays negative, the filled width is -2, and the call panics
    in [strings.Repeat]. *)
Theorem ProgressBar_negative_current_panics :
  (progressPercentage (-5) 100 <? 0)%float = true
  /\ GoFloat.to_int (progressPercentage (-5) 100 * GoFloat.of_int (wrap64 (60 - progressSpacing)))%float = -2
  /\ forall opts, ProgressBarWithOptions (-5) 100 60 opts
                  = Panic "strings: negative Repeat count".
Proof.
  split; [now vm_compute | split; [now vm_compute |]].
  intros opts. unfold ProgressBarWithOptions. cbn [Z.leb Z.compare].
  rewrite writeBar_negative; [reflexivity | now vm_compute].
Qed.

(** ** Format *)

(** C10: [Format] of the nil value returns the empty byte slice and the
    nil error; the renderers and the JSON fallback are not consulted. *)
Theorem Format_nil (Other : Type) formatMap formatSlice formatStruct MarshalIndent
    (f : terminalFormatter) :
  Format Other formatMap formatSlice formatStruct MarshalIndent f GoNil
  = (Some ""%string, None).
Proof. reflexivity. Qed.

(** ** The symbol table *)

Section Symbols.

(** Every fallback of the table is plain ASCII. *)
Lemma emojiEntries_fallbacks_ascii :
  Forall (fun entry : string * (string * string) => ascii_only entry.2.2) emojiEntries.
Proof. apply (bool_decide_unpack _). now vm_compute. Qed.

Lemma getEmojiMap_lookup (key : string) (mapping : string * string) :
  getEmojiMap !! key = Some mapping -> ascii_only mapping.2.
Proof.
  intros H. apply elem_of_list_to_map_2 in H.
  pose proof emojiEntries_fallbacks_ascii as Hall.
  rewrite Forall_forall in Hall. exact (Hall _ H).
Qed.

Lemma sentinel_ascii : ascii_only "[?]".
Proof. apply (bool_decide_unpack _). now vm_compute. Qed.

End Symbols.

(** C8: with emoji disabled, [GetSymbol] (the alias of [GetEmoji]) returns
    for every key a token without a byte above 0x7E: the text fallback of
    the entry when the key is in the table, the sentinel "[?]" when it is
    not.  The function is total. *)
Theorem GetSymbol_ascii_when_emoji_disabled (env : Env) (key : string)
    (opts : TerminalOptions) :
  Emoji opts = false ->
  GetSymbol env key opts = GetEmoji env key opts
  /\ ascii_only (GetSymbol env key opts)
  /\ GetSymbol env key opts
     = match getEmojiMap !! key with
       | Some mapping => mapping.2
       | None => "[?]"%string
       end.
Proof.
  intros Hoff. unfold GetSymbol, GetEmoji. rewrite Hoff. cbn [negb].
  split; [reflexivity | split; [| reflexivity]].
  destruct (getEmojiMap !! key) as [mapping|] eqn:Hkey.
  - exact (getEmojiMap_lookup _ _ Hkey).
  - exact sentinel_ascii.
Qed.

(** The text fallback of "success" and the sentinel of a key that the
    table does not have. *)
Lemma GetSymbol_ascii_when_emoji_disabled_witness :
  let opts := mkTerminalOptions true false 80 false true in
  let env := mkEnv (fun _ => "xterm-256color"%string) in
  (GetSymbol env "success" opts = "[OK]"%string
   /\ GetSymbol env "no-such-key" opts = "[?]"%string)
  /\ (GetSymbol env "success" opts = GetEmoji env "success" opts
      /\ ascii_only (GetSymbol env "success" opts)
      /\ GetSymbol env "success" opts
         = match getEmojiMap !! "success"%string with
           | Some mapping => mapping.2
           | None => "[?]"%string
           end).
Proof.
  intros opts env. split.
  - split; vm_compute; reflexivity.
  - apply (GetSymbol_ascii_when_emoji_disabled env "success" opts). reflexivity.
Defined.

(** ** The quoted string of a field *)

Section QuotedField.

Variable quoteFromRune : string -> string.

Lemma length_substring_0 (n : nat) (s : string) :
  (n <= String.length s)%nat -> String.length (String.substring 0 n s) = n.
Proof.
  revert s. induction n as [|n IH]; intros [|c s] H; simpl in *; try lia; try reflexivity.
  rewrite IH; lia.
Qed.

Lemma prefix_substring_0 (n : nat) (s : string) :
  String.prefix (String.substring 0 n s) s = true.
Proof.
  revert s. induction n as [|n IH]; intros [|c s]; simpl; try reflexivity.
  destruct (ascii_dec c c) as [_|Hne]; [apply IH | now destruct Hne].
Qed.

Lemma escapeASCII_plain (c : ascii) :
  Quote.plain_byte c = true -> Quote.escapeASCII c = String c "".
Proof.
  unfold Quote.plain_byte, Quote.escapeASCII. cbv zeta.
  intros H.
  destruct (Ascii.eqb c dquote); [now rewrite !andb_false_r in H|].
  destruct (Ascii.eqb c backslash); [now rewrite !andb_false_r in H|].
  rewrite !andb_true_r in H. cbn [orb]. now rewrite H.
Qed.

Lemma plain_byte_ascii (c : ascii) :
  Quote.plain_byte c = true -> (Z.of_nat (nat_of_ascii c) <? 128) = true.
Proof.
  unfold Quote.plain_byte. cbv zeta. intros H.
  apply andb_prop in H as [H _]. apply andb_prop in H as [H _].
  apply andb_prop in H as [_ H]. apply Z.leb_le in H. apply Z.ltb_lt. lia.
Qed.

(** On a plain string the escaping changes nothing. *)
Lemma escape_plain (s : string) :
  Quote.plain s = true -> Quote.escape quoteFromRune s = s.
Proof.
  induction s as [|c s IH]; [reflexivity|].
  simpl. intros H. apply andb_prop in H as [Hc Hs].
  rewrite (plain_byte_ascii _ Hc), (escapeASCII_plain _ Hc), (IH Hs).
  reflexivity.
Qed.

End QuotedField.

(** C4: [formatStringValue] renders a string longer than 50 bytes as its
    first 47 bytes followed by "...", and a string of at most 50 bytes as
    it is, in both cases quoted by [%q]: between two double quotes, the
    shown text escaped, which for printable ASCII text without quote and
    backslash is the shown text itself.  Lengths are the byte lengths of
    [len], as in the code. *)
Theorem formatStringValue_truncates_and_quotes (quoteFromRune : string -> string)
    (s : string) :
  let shown := if len s >? MaxFieldLength
               then String.substring 0 47 s +:+ "..." else s in
  formatStringValue quoteFromRune s
  = Ok (String dquote (Quote.escape quoteFromRune shown +:+ String dquote ""))
  /\ (len s > 50 ->
      len (String.substring 0 47 s) = 47
      /\ String.prefix (String.substring 0 47 s) s = true
      /\ len shown = MaxFieldLength)
  /\ (len s <= 50 -> shown = s)
  /\ (Quote.plain shown = true ->
      formatStringValue quoteFromRune s
      = Ok (String dquote (shown +:+ String dquote ""))).
Proof.
  intros shown. subst shown. unfold formatStringValue, MaxFieldLength.
  destruct (Z.gtb_spec (len s) 50) as [Hlong|Hshort].
  - assert (Hslice : slice_to s (50 - 3) = Ok (String.substring 0 47 s)).
    { unfold slice_to. change (50 - 3) with 47.
      destruct (Z.ltb_spec (len s) 47); [lia | reflexivity]. }
    rewrite Hslice. cbn [mbind result_bind].
    assert (Hlen : len (String.substring 0 47 s) = 47).
    { unfold len in *. rewrite length_substring_0; lia. }
    split; [reflexivity | split; [| split]].
    + intros _. split; [exact Hlen | split; [apply prefix_substring_0 |]].
      rewrite len_app, Hlen. reflexivity.
    + lia.
    + intros Hplain. unfold Quote.Sprintf_q. now rewrite escape_plain.
  - cbn [mbind result_bind].
    split; [reflexivity | split; [lia | split; [reflexivity |]]].
    intros Hplain. unfold Quote.Sprintf_q. now rewrite escape_plain.
Qed.

(** A 60-byte field: 47 bytes, the three dots, the quotes. *)
Lemma formatStringValue_truncates_and_quotes_witness :
  let s := repeat_nat "0123456789" 6 in
  formatStringValue (fun r => r) s
  = Ok (String dquote ("01234567890123456789012345678901234567890123456..."
                       +:+ String dquote "")).
Proof.
  intros s.
  destruct (formatStringValue_truncates_and_quotes (fun r => r) s)
    as (_ & _ & _ & Hplain).
  apply Hplain. reflexivity.
Defined.

(** ** The confidence bar *)

Section ConfidenceBar.

Lemma repeat_nat_snoc (s : string) (n : nat) :
  repeat_nat s n +:+ s = repeat_nat s (S n).
Proof.
  induction n as [|n IH]; simpl.
  - now rewrite str_app_nil, str_app_empty_r.
  - now rewrite str_app_assoc, IH.
Qed.

(** The loop of the bar over [0 .. n-1]: the cells below [barLength] are
    filled, the others empty. *)
Lemma confidence_loop (b : Builder) (filled empty barLength : Z) (n : nat) :
  foldl (fun b i => if i <? barLength then WriteRune b filled
                    else WriteRune b empty) b (seqZ 0 (Z.of_nat n))
  = b +:+ cells (utf8_encode filled) (utf8_encode empty)
            (clamp 0 (Z.of_nat n) barLength) (Z.of_nat n).
Proof.
  induction n as [|n IH].
  - unfold cells, clamp. cbn [seqZ foldl].
    replace (Z.to_nat (Z.min (Z.max barLength 0) (Z.of_nat 0))) with 0%nat by lia.
    replace (Z.to_nat (Z.of_nat 0 - Z.min (Z.max barLength 0) (Z.of_nat 0)))
      with 0%nat by lia.
    cbn [repeat_nat]. now rewrite str_app_nil, str_app_empty_r.
  - rewrite seqZ_S, foldl_app, IH. cbn [foldl]. rewrite Z.add_0_l.
    unfold WriteRune, cells, clamp.
    destruct (Z.ltb_spec (Z.of_nat n) barLength) as [Hlt|Hge].
    + replace (Z.min (Z.max barLength 0) (Z.of_nat n)) with (Z.of_nat n) by lia.
      replace (Z.min (Z.max barLength 0) (Z.of_nat (S n))) with (Z.of_nat (S n)) by lia.
      rewrite !Z.sub_diag, !Nat2Z.id. simpl repeat_nat at 2 4.
      rewrite !str_app_empty_r, str_app_assoc. f_equal. apply repeat_nat_snoc.
    + replace (Z.min (Z.max barLength 0) (Z.of_nat (S n)))
        with (Z.min (Z.max barLength 0) (Z.of_nat n)) by lia.
      set (k := Z.min (Z.max barLength 0) (Z.of_nat n)).
      replace (Z.to_nat (Z.of_nat (S n) - k)) with (S (Z.to_nat (Z.of_nat n - k))) by lia.
      rewrite !str_app_assoc. do 2 f_equal. apply repeat_nat_snoc.
Qed.

(** Where the floor of a float is a non-negative [int], the conversion
    [int(f)] is that floor. *)
Lemma to_int_floor (f : float) (n : Z) :
  GoFloat.floor f = Some n -> 0 <= n <= maxInt -> GoFloat.to_int f = n.
Proof.
  unfold GoFloat.floor, GoFloat.to_int.
  destruct (Prim2SF f) as [s|s| |s m e]; try discriminate.
  - intros [= <-] _. reflexivity.
  - intros [= <-] Hn. destruct s.
    + exfalso. destruct Hn as [Hn _]. apply Z.shiftl_nonneg in Hn. lia.
    + cbv zeta.
      destruct (Z.leb_spec minInt (Z.shiftl (Z.pos m) e)) as [_|Hlo];
        [|unfold minInt in Hlo; lia].
      destruct (Z.leb_spec (Z.shiftl (Z.pos m) e) maxInt) as [_|Hhi]; [reflexivity | lia].
Qed.

End ConfidenceBar.

(** C7, as stated, fails on the code.  For a confidence of 2 the floor of
    confidence * 10 is 20, and the bar has its ten cells filled, not
    twenty.  With emoji enabled on a terminal that is not taken to support
    emoji, the glyphs are "#" and "-", without brackets. *)
Lemma CreateConfidenceBar_not_as_specified :
  let env256 := mkEnv (fun _ => "xterm-256color"%string) in
  let envDumb := mkEnv (fun _ => ""%string) in
  (CreateConfidenceBar env256 2 DefaultOptions = repeat_nat "█" 10
   /\ ~ spec_ConfidenceBar 2 DefaultOptions
          (CreateConfidenceBar env256 2 DefaultOptions))
  /\ (CreateConfidenceBar envDumb 0.5 DefaultOptions = "#####-----"%string
      /\ ~ spec_ConfidenceBar 0.5 DefaultOptions
             (CreateConfidenceBar envDumb 0.5 DefaultOptions)).
Proof.
  intros env256 envDumb. split; split; try (vm_compute; reflexivity).
  - intros (k & Hk & Hout). vm_compute in Hk. injection Hk as <-.
    vm_compute in Hout. discriminate Hout.
  - intros (k & Hk & Hout). vm_compute in Hk. injection Hk as <-.
    vm_compute in Hout. discriminate Hout.
Qed.

(** C7, amended.  For every confidence, environment and options the bar
    has exactly ten cells, the first k filled and the others empty, where
    k is [int(confidence * 10)] kept within 0..10; k is the floor of
    confidence * 10 whenever that floor lies in 0..10, hence 0 at
    confidence 0 and 10 at confidence 1.  With emoji enabled and supported
    the glyphs are "█" and "░" without brackets; with emoji disabled they
    are "#" and "-" between "[" and "]". *)
Theorem CreateConfidenceBar_ten_cells (env : Env) (confidence : float)
    (opts : TerminalOptions) :
  let k := clamp 0 10 (confidenceBarLength confidence) in
  let '(filled, empty) := confidenceGlyphs env opts in
  CreateConfidenceBar env confidence opts
  = (if Emoji opts then "" else "[")
    +:+ cells (utf8_encode filled) (utf8_encode empty) k 10
    +:+ (if Emoji opts then "" else "]")
  /\ 0 <= k <= 10
  /\ (forall n, GoFloat.floor (confidence * 10)%float = Some n ->
                0 <= n <= 10 -> k = n)
  /\ (Emoji opts = true -> supportsEmoji env = true ->
      utf8_encode filled = "█"%string /\ utf8_encode empty = "░"%string)
  /\ (Emoji opts = false ->
      utf8_encode filled = "#"%string /\ utf8_encode empty = "-"%string)
  /\ clamp 0 10 (confidenceBarLength 0) = 0
  /\ clamp 0 10 (confidenceBarLength 1) = 10.
Proof.
  intros k. subst k.
  destruct (confidenceGlyphs env opts) as [filled empty] eqn:Hglyphs.
  split; [|split; [|split; [|split; [|split; [|split]]]]].
  - unfold CreateConfidenceBar. rewrite Hglyphs.
    change ConfidenceBarLength with (Z.of_nat 10).
    destruct (Emoji opts); cbn [negb]; unfold WriteString;
      rewrite confidence_loop; rewrite ?str_app_nil, ?str_app_empty_r, ?str_app_assoc;
      reflexivity.
  - unfold clamp. lia.
  - intros n Hfloor Hn. unfold confidenceBarLength.
    change (GoFloat.of_int ConfidenceBarLength) with 10%float.
    rewrite (to_int_floor _ n Hfloor) by (unfold maxInt; lia).
    unfold clamp. lia.
  - intros Hon Hsup. unfold confidenceGlyphs in Hglyphs.
    rewrite Hon, Hsup in Hglyphs. injection Hglyphs as <- <-.
    split; reflexivity.
  - intros Hoff. unfold confidenceGlyphs in Hglyphs.
    rewrite Hoff in Hglyphs. injection Hglyphs as <- <-.
    split; reflexivity.
  - now vm_compute.
  - now vm_compute.
Qed.

(** ** Loops that append to a builder *)

Section Loops.

Context {A : Type}.

Lemma concat_nil : concat [] = ""%string.
Proof. reflexivity. Qed.

Lemma concat_cons (a : string) (l : list string) : concat (a :: l) = a +:+ concat l.
Proof. reflexivity. Qed.

Lemma concat_app (l1 l2 : list string) : concat (l1 ++ l2) = concat l1 +:+ concat l2.
Proof.
  induction l1 as [|a l1 IH]; [reflexivity|].
  cbn [app]. rewrite !concat_cons, IH. now rewrite str_app_assoc.
Qed.

(** A loop whose body appends [text i x] and does not panic returns the
    builder followed by the texts, in the order of the slice. *)
Lemma range_from_appends (text : Z -> A -> string)
    (body : Z -> A -> Builder -> result Builder) (l : list A) :
  forall (i : Z) (b : Builder),
    (forall (j : nat) (x : A) (b' : Builder),
        l !! j = Some x ->
        body (i + Z.of_nat j) x b' = Ok (b' +:+ text (i + Z.of_nat j) x)) ->
    range_from i l body b = Ok (b +:+ concat (texts_from text i l)).
Proof.
  induction l as [|x l IH]; intros i b Hbody.
  - cbn [range_from texts_from]. now rewrite concat_nil, str_app_empty_r.
  - cbn [range_from texts_from].
    pose proof (Hbody 0%nat x b eq_refl) as H0.
    rewrite Z.add_0_r in H0. rewrite H0. cbn [mbind result_bind].
    rewrite IH.
    + now rewrite concat_cons, str_app_assoc.
    + intros j y b' Hj.
      replace (i + 1 + Z.of_nat j) with (i + Z.of_nat (S j)) by lia.
      now apply Hbody.
Qed.

Lemma texts_from_const (t : A -> string) (i : Z) (l : list A) :
  texts_from (fun _ => t) i l = t <$> l.
Proof.
  revert i. induction l as [|x l IH]; intros i; [reflexivity|].
  cbn [texts_from fmap list_fmap]. f_equal. apply IH.
Qed.

End Loops.

(** ** Boxes *)

Section Boxes.

Lemma maxLineLen_cons (start : Z) (line : string) (lines : list string) :
  maxLineLen start (line :: lines)
  = maxLineLen (if len line >? start then len line else start) lines.
Proof. reflexivity. Qed.

Lemma maxLineLen_ge_start (lines : list string) :
  forall start, start <= maxLineLen start lines.
Proof.
  induction lines as [|l lines IH]; intros start.
  - unfold maxLineLen. cbn [foldl]. lia.
  - rewrite maxLineLen_cons. destruct (Z.gtb_spec (len l) start).
    + specialize (IH (len l)). lia.
    + apply IH.
Qed.

Lemma maxLineLen_ge (lines : list string) :
  forall start line, line ∈ lines -> len line <= maxLineLen start lines.
Proof.
  induction lines as [|l lines IH]; intros start line Hin.
  - now apply elem_of_nil in Hin.
  - rewrite maxLineLen_cons. apply elem_of_cons in Hin as [->|Hin].
    + destruct (Z.gtb_spec (len l) start) as [Hgt|Hle].
      * apply maxLineLen_ge_start.
      * pose proof (maxLineLen_ge_start lines start). lia.
    + now apply IH.
Qed.

Lemma maxLineLen_attained (lines : list string) :
  forall start,
    maxLineLen start lines = start
    \/ exists line, line ∈ lines /\ len line = maxLineLen start lines.
Proof.
  induction lines as [|l lines IH]; intros start.
  - now left.
  - rewrite maxLineLen_cons. destruct (Z.gtb_spec (len l) start) as [Hgt|Hle].
    + right. destruct (IH (len l)) as [Heq|(line & Hin & Hlen)].
      * exists l. split; [apply list_elem_of_here | now rewrite Heq].
      * exists line. split; [now apply list_elem_of_further | exact Hlen].
    + destruct (IH start) as [Heq|(line & Hin & Hlen)]; [now left|].
      right. exists line. split; [now apply list_elem_of_further | exact Hlen].
Qed.

Lemma Split_nl_nonempty (s : string) : Split_nl s <> [].
Proof.
  induction s as [|c s IH]; simpl; [discriminate|].
  destruct (Ascii.eqb c nl); [discriminate|].
  destruct (Split_nl s); [contradiction | discriminate].
Qed.

Lemma has_nl_app (a b : string) : has_nl (a +:+ b) = has_nl a || has_nl b.
Proof.
  induction a as [|c a IH]; [reflexivity|].
  rewrite str_app_cons. simpl. rewrite IH. now rewrite orb_assoc.
Qed.

Lemma has_nl_repeat (s : string) (n : nat) :
  has_nl s = false -> has_nl (repeat_nat s n) = false.
Proof.
  intros Hs. induction n as [|n IH]; [reflexivity|].
  simpl. now rewrite has_nl_app, Hs, IH.
Qed.

(** The lines of [strings.Split] have no newline. *)
Lemma Split_nl_no_nl (s : string) :
  Forall (fun line => has_nl line = false) (Split_nl s).
Proof.
  induction s as [|c s IH]; simpl.
  - now repeat constructor.
  - destruct (Ascii.eqb c nl) eqn:Hc.
    + constructor; [reflexivity | exact IH].
    + destruct (Split_nl s) as [|h t]; [now repeat constructor; simpl; rewrite Hc|].
      inversion IH as [|? ? Hh Ht]; subst.
      constructor; [simpl; now rewrite Hc, Hh | exact Ht].
Qed.

Lemma Split_nl_single (a : string) : has_nl a = false -> Split_nl a = [a].
Proof.
  induction a as [|c a IH]; [reflexivity|].
  simpl. intros H. apply orb_false_elim in H as [Hc Ha].
  now rewrite Hc, (IH Ha).
Qed.

Lemma Split_nl_line (a b : string) :
  has_nl a = false -> Split_nl (a +:+ NL +:+ b) = a :: Split_nl b.
Proof.
  induction a as [|c a IH]; intros H.
  - reflexivity.
  - simpl in H. apply orb_false_elim in H as [Hc Ha].
    rewrite str_app_cons. simpl. rewrite Hc, (IH Ha). reflexivity.
Qed.

(** The lines of a text made of rows without newline. *)
Lemma Split_nl_rows (rows : list string) (last : string) :
  Forall (fun row => has_nl row = false) rows -> has_nl last = false ->
  Split_nl (concat ((fun row => row +:+ NL) <$> rows) +:+ last) = rows ++ [last].
Proof.
  intros Hrows Hlast. induction Hrows as [|row rows Hrow _ IH].
  - cbn [fmap list_fmap app]. rewrite concat_nil, str_app_nil.
    now apply Split_nl_single.
  - cbn [fmap list_fmap app]. rewrite concat_cons, !str_app_assoc.
    rewrite (Split_nl_line row _ Hrow). f_equal. exact IH.
Qed.

Lemma runeCount_repeat_nat (s : string) (n : nat) :
  runeCount (repeat_nat s n) = Z.of_nat n * runeCount s.
Proof.
  induction n as [|n IH]; [reflexivity|].
  cbn [repeat_nat]. rewrite runeCount_app, IH. lia.
Qed.

Lemma maxLineLen_nonneg (lines : list string) : 0 <= maxLineLen 0 lines.
Proof. apply maxLineLen_ge_start. Qed.

(** The text that [simpleBox] builds. *)
Lemma simpleBox_text (content : string) :
  let lines := Split_nl content in
  let maxLen := maxLineLen 0 lines in
  simpleBox content
  = Ok (boxTop maxLen +:+ NL
        +:+ concat ((fun row => row +:+ NL) <$> (boxRow maxLen <$> lines))
        +:+ boxBottom maxLen).
Proof.
  intros lines maxLen. unfold simpleBox. fold lines. fold maxLen.
  pose proof (maxLineLen_nonneg lines) as Hmax. fold maxLen in Hmax.
  destruct (Z.eqb_spec (llen lines) 0) as [Hzero|_].
  { exfalso. apply (Split_nl_nonempty content). fold lines.
    unfold llen in Hzero. destruct lines; [reflexivity | simpl in Hzero; lia]. }
  unfold borderPadding.
  rewrite (Repeat_nonneg "─" (maxLen + 2)) by lia. cbn [mbind result_bind].
  unfold range.
  rewrite (range_from_appends (fun _ line => boxRow maxLen line +:+ NL)).
  - cbn [mbind result_bind]. unfold WriteString, boxTop, boxBottom.
    rewrite texts_from_const, <- list_fmap_compose.
    rewrite !str_app_nil, !str_app_assoc. reflexivity.
  - intros j line b' Hj.
    assert (Hle : len line <= maxLen).
    { apply maxLineLen_ge. apply list_elem_of_lookup. now exists j. }
    rewrite (Repeat_nonneg " " (maxLen - len line)) by lia.
    cbn [mbind result_bind]. unfold WriteString, boxRow, boxPadded.
    rewrite !str_app_assoc. reflexivity.
Qed.

Lemma has_nl_boxRow (maxLen : Z) (line : string) :
  has_nl line = false -> has_nl (boxRow maxLen line) = false.
Proof.
  intros H. unfold boxRow, boxPadded.
  rewrite !has_nl_app, H, has_nl_repeat by reflexivity. reflexivity.
Qed.

End Boxes.

(** C6: [Box] without title draws the single-line border.  With [maxLen]
    the byte length of the longest line of the content, the output has the
    top border as its first line, one row per content line, and the bottom
    border as its last line; both borders are [maxLen] + 2 + 2 glyphs wide;
    a row is the line padded with spaces to [maxLen] bytes, between "│ "
    and " │".  The call does not panic. *)
Theorem Box_untitled_border (content : string) :
  let lines := Split_nl content in
  let maxLen := maxLineLen 0 lines in
  ((forall line, line ∈ lines -> len line <= maxLen)
   /\ exists line, line ∈ lines /\ len line = maxLen)
  /\ (exists out, Box "" content = Ok out
                  /\ Split_nl out
                     = boxTop maxLen :: (boxRow maxLen <$> lines) ++ [boxBottom maxLen])
  /\ runeCount (boxTop maxLen) = maxLen + 2 + 2
  /\ runeCount (boxBottom maxLen) = maxLen + 2 + 2
  /\ (forall line, line ∈ lines ->
        boxRow maxLen line = "│ " +:+ boxPadded maxLen line +:+ " │"
        /\ boxPadded maxLen line = line +:+ repeat_nat " " (Z.to_nat (maxLen - len line))
        /\ len (boxPadded maxLen line) = maxLen).
Proof.
  intros lines maxLen.
  pose proof (maxLineLen_nonneg lines) as Hmax. fold maxLen in Hmax.
  assert (Hge : forall line, line ∈ lines -> len line <= maxLen).
  { intros line Hin. now apply maxLineLen_ge. }
  split; [split; [exact Hge|] | split; [| split; [| split]]].
  - destruct (maxLineLen_attained lines 0) as [Hzero|Hex]; [|exact Hex].
    fold maxLen in Hzero.
    destruct lines as [|line rest] eqn:Hlines;
      [now destruct (Split_nl_nonempty content)|].
    exists line. split; [apply list_elem_of_here|].
    pose proof (Hge line (list_elem_of_here _ _)). pose proof (len_nonneg line). lia.
  - eexists. split.
    + unfold Box, BoxWithOptions. cbn [String.eqb]. apply simpleBox_text.
    + fold lines. fold maxLen. rewrite Split_nl_line.
      * f_equal. apply Split_nl_rows.
        -- apply Forall_fmap. eapply Forall_impl; [apply Split_nl_no_nl|].
           intros line Hline. now apply has_nl_boxRow.
        -- unfold boxBottom. rewrite !has_nl_app, has_nl_repeat by reflexivity.
           reflexivity.
      * unfold boxTop. rewrite !has_nl_app, has_nl_repeat by reflexivity.
        reflexivity.
  - unfold boxTop. rewrite !runeCount_app, runeCount_repeat_nat.
    change (runeCount "┌") with 1. change (runeCount "─") with 1.
    change (runeCount "┐") with 1. lia.
  - unfold boxBottom. rewrite !runeCount_app, runeCount_repeat_nat.
    change (runeCount "└") with 1. change (runeCount "─") with 1.
    change (runeCount "┘") with 1. lia.
  - intros line Hin. split; [reflexivity | split; [reflexivity|]].
    unfold boxPadded. rewrite len_app. unfold len at 2.
    rewrite length_repeat_nat. change (String.length " ") with 1%nat.
    specialize (Hge line Hin). lia.
Qed.

(** ** Tables *)

Section Tables.

Lemma llen_app {A : Type} (l1 l2 : list A) : llen (l1 ++ l2) = llen l1 + llen l2.
Proof. unfold llen. rewrite length_app. lia. Qed.

Lemma llen_nonneg {A : Type} (l : list A) : 0 <= llen l.
Proof. unfold llen. lia. Qed.

Lemma index_middle {A : Type} (pre : list A) (x : A) (post : list A) :
  index (pre ++ x :: post) (llen pre) = Ok x.
Proof.
  unfold index. rewrite llen_app.
  pose proof (llen_nonneg pre). pose proof (llen_nonneg (x :: post)).
  assert (0 < llen (x :: post)) by (unfold llen; simpl; lia).
  destruct (Z.ltb_spec (llen pre) 0); [lia|].
  destruct (Z.leb_spec (llen pre + llen (x :: post)) (llen pre)); [lia|].
  cbn [orb]. unfold llen. rewrite Nat2Z.id, list_lookup_middle; reflexivity.
Qed.

Lemma insert_at_length {A : Type} (pre : list A) (x y : A) (post : list A) :
  <[length pre := y]> (pre ++ x :: post) = pre ++ y :: post.
Proof. induction pre as [|p pre IH]; [reflexivity|]. cbn. now f_equal. Qed.

Lemma set_index_middle {A : Type} (pre : list A) (x y : A) (post : list A) :
  set_index (pre ++ x :: post) (llen pre) y = Ok (pre ++ y :: post).
Proof.
  unfold set_index. rewrite llen_app.
  pose proof (llen_nonneg pre).
  assert (0 < llen (x :: post)) by (unfold llen; simpl; lia).
  destruct (Z.ltb_spec (llen pre) 0); [lia|].
  destruct (Z.leb_spec (llen pre + llen (x :: post)) (llen pre)); [lia|].
  cbn [orb]. unfold llen. now rewrite Nat2Z.id, insert_at_length.
Qed.

Lemma llen_snoc {A : Type} (pre : list A) (x : A) : llen (pre ++ [x]) = llen pre + 1.
Proof. rewrite llen_app. reflexivity. Qed.

(** The first loop writes the header lengths. *)
Lemma colWidths_headers (headers : list string) :
  forall pre : list Z,
    range_from (llen pre) headers
      (fun i header cw => set_index cw i (len header))
      (pre ++ replicate (length headers) 0)
    = Ok (pre ++ (len <$> headers)).
Proof.
  induction headers as [|h headers IH]; intros pre; [reflexivity|].
  cbn [range_from length replicate fmap list_fmap].
  rewrite (set_index_middle pre 0 (len h)). cbn [mbind result_bind].
  rewrite <- (llen_snoc pre (len h)).
  replace (pre ++ len h :: replicate (length headers) 0)
    with ((pre ++ [len h]) ++ replicate (length headers) 0)
    by now rewrite <- app_assoc.
  rewrite IH. now rewrite <- app_assoc.
Qed.

(** One row of the second loop. *)
Lemma colWidths_row (row : list string) :
  forall pre widths : list Z,
    range_from (llen pre) row
      (fun i cell cw =>
         if i <? llen cw then
           w ← index cw i;
           if len cell >? w then set_index cw i (len cell) else Ok cw
         else Ok cw) (pre ++ widths)
    = Ok (pre ++ widenRow widths row).
Proof.
  induction row as [|cell row IH]; intros pre widths.
  - cbn [range_from]. now destruct widths.
  - cbn [range_from]. destruct widths as [|w widths].
    + rewrite app_nil_r. destruct (Z.ltb_spec (llen pre) (llen pre)); [lia|].
      cbn [mbind result_bind]. specialize (IH pre []).
      rewrite app_nil_r in IH.
      assert (Hempty : widenRow [] row = []) by now destruct row.
      rewrite Hempty, app_nil_r in IH.
      (* no column is left: the remaining cells change nothing *)
      clear Hempty.
      assert (Hrest : forall (l : list string) (i : Z), llen pre <= i ->
                range_from i l
                  (fun i cell cw =>
                     if i <? llen cw then
                       w ← index cw i;
                       if len cell >? w then set_index cw i (len cell) else Ok cw
                     else Ok cw) pre = Ok pre).
      { induction l as [|c l IHl]; intros i Hi; [reflexivity|].
        cbn [range_from]. destruct (Z.ltb_spec i (llen pre)); [lia|].
        cbn [mbind result_bind]. apply IHl. lia. }
      cbn [widenRow]. rewrite app_nil_r. apply Hrest. lia.
    + rewrite llen_app.
      assert (0 < llen (w :: widths)) by (unfold llen; simpl; lia).
      destruct (Z.ltb_spec (llen pre) (llen pre + llen (w :: widths))); [|lia].
      rewrite (index_middle pre w widths). cbn [mbind result_bind widenRow].
      replace (pre ++ Z.max w (len cell) :: widenRow widths row)
        with ((pre ++ [Z.max w (len cell)]) ++ widenRow widths row)
        by now rewrite <- app_assoc.
      rewrite <- (IH (pre ++ [Z.max w (len cell)]) widths), llen_snoc.
      destruct (Z.gtb_spec (len cell) w) as [Hgt|Hle].
      * rewrite (set_index_middle pre w (len cell)). cbn [mbind result_bind].
        rewrite Z.max_r by lia. now rewrite <- app_assoc.
      * cbn [mbind result_bind]. rewrite Z.max_l by lia. now rewrite <- app_assoc.
Qed.

Lemma colWidths_rows (rows : list (list string)) :
  forall (i : Z) (widths : list Z),
    range_from i rows
      (fun _ row cw =>
         range row (fun i cell cw =>
           if i <? llen cw then
             w ← index cw i;
             if len cell >? w then set_index cw i (len cell) else Ok cw
           else Ok cw) cw) widths
    = Ok (foldl widenRow widths rows).
Proof.
  induction rows as [|row rows IH]; intros i widths; [reflexivity|].
  cbn [range_from foldl].
  pose proof (colWidths_row row [] widths) as Hrow. cbn [app] in Hrow.
  change (llen (@nil Z)) with 0 in Hrow. unfold range.
  rewrite Hrow. cbn [mbind result_bind].
  apply IH.
Qed.

(** The two loops: the header lengths, widened by every row. *)
Lemma colWidths_fold (headers : list string) (rows : list (list string)) :
  colWidths headers rows = Ok (foldl widenRow (len <$> headers) rows).
Proof.
  unfold colWidths.
  pose proof (colWidths_headers headers []) as H0. cbn [app] in H0.
  change (llen (@nil Z)) with 0 in H0. unfold range.
  rewrite H0. cbn [mbind result_bind].
  apply colWidths_rows.
Qed.

Lemma widenRow_length (row : list string) :
  forall widths, length (widenRow widths row) = length widths.
Proof.
  induction row as [|cell row IH]; intros [|w widths]; try reflexivity.
  cbn [widenRow length]. now rewrite IH.
Qed.

Lemma foldl_widenRow_length (rows : list (list string)) :
  forall widths, length (foldl widenRow widths rows) = length widths.
Proof.
  induction rows as [|row rows IH]; intros widths; [reflexivity|].
  cbn [foldl]. now rewrite IH, widenRow_length.
Qed.

Lemma widenRow_lookup (row : list string) :
  forall (widths : list Z) (i : nat),
    widenRow widths row !! i
    = (fun w => match row !! i with
                | Some cell => Z.max w (len cell)
                | None => w
                end) <$> widths !! i.
Proof.
  induction row as [|cell row IH]; intros widths i.
  - rewrite lookup_nil.
    replace (widenRow widths []) with widths by now destruct widths.
    now destruct (widths !! i).
  - destruct widths as [|w widths]; [reflexivity|].
    cbn [widenRow]. destruct i as [|i]; [reflexivity|]. exact (IH widths i).
Qed.

Lemma columnCells_cons (i : nat) (row : list string) (rows : list (list string)) :
  columnCells i (row :: rows)
  = match row !! i with
    | Some cell => cell :: columnCells i rows
    | None => columnCells i rows
    end.
Proof. reflexivity. Qed.

Lemma foldr_max_start (l : list Z) (w a : Z) :
  foldr Z.max (Z.max w a) l = Z.max a (foldr Z.max w l).
Proof. induction l as [|x l IH]; cbn [foldr]; [lia | rewrite IH; lia]. Qed.

Lemma foldr_max_ge_start (l : list Z) (w : Z) : w <= foldr Z.max w l.
Proof. induction l as [|x l IH]; cbn [foldr]; lia. Qed.

Lemma foldr_max_ge (l : list Z) (w x : Z) : x ∈ l -> x <= foldr Z.max w l.
Proof.
  induction l as [|y l IH]; intros Hin; [now apply elem_of_nil in Hin|].
  cbn [foldr]. apply elem_of_cons in Hin as [->|Hin]; [lia|].
  specialize (IH Hin). lia.
Qed.

(** After the rows, a column holds the larger of its start and of the
    lengths of its cells. *)
Lemma foldl_widenRow_lookup (rows : list (list string)) :
  forall (widths : list Z) (i : nat) (w : Z),
    widths !! i = Some w ->
    foldl widenRow widths rows !! i
    = Some (foldr Z.max w (len <$> columnCells i rows)).
Proof.
  induction rows as [|row rows IH]; intros widths i w Hw; [exact Hw|].
  cbn [foldl]. rewrite columnCells_cons.
  pose proof (widenRow_lookup row widths i) as Hrow. rewrite Hw in Hrow.
  cbn [fmap option_fmap option_map] in Hrow.
  rewrite (IH _ _ _ Hrow).
  destruct (row !! i) as [cell|]; [|reflexivity].
  cbn [fmap list_fmap foldr]. now rewrite foldr_max_start.
Qed.

Lemma columnCells_elem (i : nat) (rows : list (list string)) (row : list string)
    (cell : string) :
  row ∈ rows -> row !! i = Some cell -> cell ∈ columnCells i rows.
Proof.
  intros Hrow Hcell. unfold columnCells. apply list_elem_of_omap.
  now exists row.
Qed.

(** The column widths that [TableWithOptions] computes. *)
Lemma colWidths_spec (headers : list string) (rows : list (list string)) :
  exists widths,
    colWidths headers rows = Ok widths
    /\ length widths = length headers
    /\ (forall i header, headers !! i = Some header ->
                         widths !! i = Some (columnWidth i header rows)).
Proof.
  exists (foldl widenRow (len <$> headers) rows).
  split; [apply colWidths_fold | split].
  - now rewrite foldl_widenRow_length, length_fmap.
  - intros i header Hi. unfold columnWidth.
    apply foldl_widenRow_lookup. now rewrite list_lookup_fmap, Hi.
Qed.

Lemma index_widthAt (cw : list Z) (i : Z) :
  0 <= i < llen cw -> index cw i = Ok (widthAt cw i).
Proof.
  intros Hi. unfold index, widthAt.
  destruct (Z.ltb_spec i 0); [lia|].
  destruct (Z.leb_spec (llen cw) i); [lia|]. cbn [orb].
  destruct (cw !! Z.to_nat i) eqn:Hl; [reflexivity|].
  apply lookup_ge_None in Hl. unfold llen in Hi. lia.
Qed.

Lemma widthAt_middle (pre : list Z) (w : Z) (post : list Z) :
  widthAt (pre ++ w :: post) (llen pre) = w.
Proof. unfold widthAt, llen. now rewrite Nat2Z.id, list_lookup_middle. Qed.

Lemma widthAt_lookup (cw : list Z) (j : nat) (w : Z) :
  cw !! j = Some w -> widthAt cw (Z.of_nat j) = w.
Proof. intros H. unfold widthAt. now rewrite Nat2Z.id, H. Qed.

(** Past the last column the cells of a row add nothing. *)
Lemma cellTexts_exhausted (cw : list Z) (row : list string) :
  forall i, llen cw <= i -> concat (texts_from (cellText cw) i row) = ""%string.
Proof.
  induction row as [|cell row IH]; intros i Hi; [reflexivity|].
  cbn [texts_from]. rewrite concat_cons, IH by lia.
  unfold cellText. destruct (Z.ltb_spec i (llen cw)); [lia | reflexivity].
Qed.

(** The cells of a row are matched to the columns by index. *)
Lemma cellTexts_zip (row : list string) :
  forall pre widths : list Z,
    concat (texts_from (cellText (pre ++ widths)) (llen pre) row)
    = concat (zip_with tableCell widths row).
Proof.
  induction row as [|cell row IH]; intros pre widths.
  - now destruct widths.
  - destruct widths as [|w widths].
    + rewrite app_nil_r. cbn [zip_with]. apply cellTexts_exhausted. lia.
    + cbn [texts_from zip_with]. rewrite !concat_cons.
      unfold cellText at 1. rewrite llen_app.
      assert (0 < llen (w :: widths)) by (unfold llen; simpl; lia).
      destruct (Z.ltb_spec (llen pre) (llen pre + llen (w :: widths))); [|lia].
      rewrite widthAt_middle. f_equal.
      rewrite <- (llen_snoc pre w).
      replace (pre ++ w :: widths) with ((pre ++ [w]) ++ widths)
        by now rewrite <- app_assoc.
      apply IH.
Qed.

Lemma ruleTexts_segments (widths : list Z) :
  forall pre : list Z,
    texts_from (ruleText (pre ++ widths)) (llen pre) widths
    = tableRuleSegments widths.
Proof.
  induction widths as [|w widths IH]; intros pre; [reflexivity|].
  cbn [texts_from]. rewrite <- (llen_snoc pre w).
  replace (pre ++ w :: widths) with ((pre ++ [w]) ++ widths)
    by now rewrite <- app_assoc.
  rewrite IH. unfold ruleText. rewrite !llen_app.
  change (llen [w]) with 1.
  destruct widths as [|w' widths].
  - change (llen (@nil Z)) with 0.
    destruct (Z.ltb_spec (llen pre) (llen pre + 1 + 0 - 1)); [lia|].
    cbn [tableRuleSegments]. now rewrite str_app_empty_r.
  - assert (0 < llen (w' :: widths)) by (unfold llen; simpl; lia).
    destruct (Z.ltb_spec (llen pre) (llen pre + 1 + llen (w' :: widths) - 1)); [|lia].
    reflexivity.
Qed.

(** The loop over the cells of a row, for widths that the cells fit. *)
Lemma row_loop (widths : list Z) (row : list string) (b : Builder) :
  row_fits widths row ->
  range_from 0 row
    (fun i cell b =>
       if i <? llen widths then
         w ← index widths i;
         let padding := w - len cell in
         pad ← Repeat " " padding;
         Ok (WriteString b (" " +:+ cell +:+ pad +:+ " │"))
       else Ok b) b
  = Ok (b +:+ concat (zip_with tableCell widths row)).
Proof.
  intros Hfit.
  rewrite (range_from_appends (cellText widths)).
  - pose proof (cellTexts_zip row [] widths) as Hzip. cbn [app] in Hzip.
    change (llen (@nil Z)) with 0 in Hzip. now rewrite Hzip.
  - intros j cell b' Hj. rewrite Z.add_0_l. unfold cellText.
    destruct (Z.ltb_spec (Z.of_nat j) (llen widths)) as [Hlt|Hge];
      [|now rewrite str_app_empty_r].
    rewrite index_widthAt by lia. cbn [mbind result_bind]. cbv zeta.
    destruct (widths !! j) as [w|] eqn:Hw;
      [|apply lookup_ge_None in Hw; unfold llen in Hlt; lia].
    rewrite (widthAt_lookup _ _ _ Hw).
    rewrite (Repeat_nonneg " " (w - len cell)) by (specialize (Hfit j cell w Hj Hw); lia).
    reflexivity.
Qed.

(** The loop over the widths that draws the rule. *)
Lemma rule_loop (widths : list Z) (b : Builder) :
  Forall (fun w => 0 <= w) widths ->
  range_from 0 widths
    (fun i width b =>
       rule ← Repeat "─" (width + tableRowPadding);
       let b := WriteString b rule in
       Ok (if i <? llen widths - 1 then WriteString b "┼" else b)) b
  = Ok (b +:+ concat (tableRuleSegments widths)).
Proof.
  intros Hpos.
  rewrite (range_from_appends (ruleText widths)).
  - pose proof (ruleTexts_segments widths []) as Hseg. cbn [app] in Hseg.
    change (llen (@nil Z)) with 0 in Hseg. now rewrite Hseg.
  - intros j w b' Hj. rewrite Z.add_0_l. unfold ruleText, tableRowPadding.
    assert (0 <= w).
    { rewrite Forall_forall in Hpos. apply Hpos.
      apply list_elem_of_lookup. now exists j. }
    rewrite (Repeat_nonneg "─" (w + 2)) by lia.
    cbn [mbind result_bind]. cbv zeta. unfold WriteString.
    destruct (Z.of_nat j <? llen widths - 1);
      [now rewrite str_app_assoc | now rewrite str_app_empty_r].
Qed.

Lemma columnWidth_ge_header (i : nat) (header : string) (rows : list (list string)) :
  len header <= columnWidth i header rows.
Proof. apply foldr_max_ge_start. Qed.

Lemma columnWidth_ge_cell (i : nat) (header : string) (rows : list (list string))
    (row : list string) (cell : string) :
  row ∈ rows -> row !! i = Some cell -> len cell <= columnWidth i header rows.
Proof.
  intros Hrow Hcell. apply foldr_max_ge.
  apply list_elem_of_fmap. exists cell. split; [reflexivity|].
  now apply (columnCells_elem i rows row).
Qed.

(** What [TableWithOptions] returns for at least one header. *)
Lemma TableWithOptions_text (headers : list string) (rows : list (list string))
    (opts : TerminalOptions) :
  headers <> [] ->
  TableWithOptions headers rows opts
  = Ok (tableText (foldl widenRow (len <$> headers) rows) headers rows).
Proof.
  intros Hne. unfold TableWithOptions.
  destruct (Z.eqb_spec (llen headers) 0) as [Hzero|_].
  { destruct headers; [contradiction | unfold llen in Hzero; simpl in Hzero; lia]. }
  rewrite colWidths_fold. cbn [mbind result_bind].
  destruct (colWidths_spec headers rows) as (W & HW & Hlen & Hcol).
  rewrite colWidths_fold in HW. injection HW as HW. rewrite HW. clear HW.
  assert (Hhead : row_fits W headers).
  { intros j header w Hj Hw. rewrite (Hcol _ _ Hj) in Hw. injection Hw as <-.
    apply columnWidth_ge_header. }
  assert (Hpos : Forall (fun w => 0 <= w) W).
  { apply Forall_forall. intros w Hw. apply list_elem_of_lookup in Hw as [j Hj].
    destruct (headers !! j) as [header|] eqn:Hh.
    - rewrite (Hcol _ _ Hh) in Hj. injection Hj as <-.
      pose proof (columnWidth_ge_header j header rows). pose proof (len_nonneg header). lia.
    - apply lookup_ge_None in Hh. apply lookup_lt_Some in Hj. lia. }
  assert (Hrows : forall row, row ∈ rows -> row_fits W row).
  { intros row Hrow j cell w Hj Hw.
    destruct (headers !! j) as [header|] eqn:Hh.
    - rewrite (Hcol _ _ Hh) in Hw. injection Hw as <-.
      now apply (columnWidth_ge_cell j header rows row).
    - apply lookup_ge_None in Hh. apply lookup_lt_Some in Hw. lia. }
  unfold range.
  (* the header loop is the loop of a row, all indices being in range *)
  assert (Hheaders : forall b,
    range_from 0 headers
      (fun i header b =>
         w ← index W i;
         let padding := w - len header in
         pad ← Repeat " " padding;
         Ok (WriteString b (" " +:+ header +:+ pad +:+ " │"))) b
    = Ok (b +:+ concat (zip_with tableCell W headers))).
  { intros b. rewrite (range_from_appends (cellText W)).
    - pose proof (cellTexts_zip headers [] W) as Hzip. cbn [app] in Hzip.
      change (llen (@nil Z)) with 0 in Hzip. now rewrite Hzip.
    - intros j header b' Hj. rewrite Z.add_0_l. unfold cellText.
      pose proof (lookup_lt_Some _ _ _ Hj) as Hlt.
      destruct (Z.ltb_spec (Z.of_nat j) (llen W)) as [_|Hge];
        [|unfold llen in Hge; lia].
      rewrite index_widthAt by (unfold llen; lia). cbn [mbind result_bind]. cbv zeta.
      rewrite (widthAt_lookup _ _ _ (Hcol _ _ Hj)).
      rewrite (Repeat_nonneg " " (columnWidth j header rows - len header))
        by (pose proof (columnWidth_ge_header j header rows); lia).
      reflexivity. }
  rewrite Hheaders. cbn [mbind result_bind].
  rewrite (rule_loop W _ Hpos). cbn [mbind result_bind].
  rewrite (range_from_appends (fun _ row => tableRow W row +:+ NL)).
  - cbn [mbind result_bind]. f_equal. unfold tableText. f_equal.
    rewrite texts_from_const. unfold WriteString, tableRow, tableRule.
    rewrite !str_app_nil, !str_app_assoc. reflexivity.
  - intros j row b' Hj. cbv zeta.
    rewrite (row_loop W row _ (Hrows row ltac:(apply list_elem_of_lookup; now exists j))).
    cbn [mbind result_bind]. unfold WriteString, tableRow.
    rewrite !str_app_assoc. reflexivity.
Qed.

Lemma widenRow_take (row : list string) :
  forall widths, widenRow widths (take (length widths) row) = widenRow widths row.
Proof.
  induction row as [|cell row IH]; intros [|w widths]; try reflexivity.
  cbn [length take widenRow]. now rewrite IH.
Qed.

Lemma foldl_widenRow_take (rows : list (list string)) :
  forall widths,
    foldl widenRow widths (take (length widths) <$> rows) = foldl widenRow widths rows.
Proof.
  induction rows as [|row rows IH]; intros widths; [reflexivity|].
  cbn [fmap list_fmap foldl]. rewrite widenRow_take.
  rewrite <- (IH (widenRow widths row)). now rewrite widenRow_length.
Qed.

Lemma tableRow_take (widths : list Z) (row : list string) :
  tableRow widths (take (length widths) row) = tableRow widths row.
Proof.
  unfold tableRow. f_equal. f_equal.
  revert row. induction widths as [|w widths IH]; intros [|cell row]; try reflexivity.
  cbn [length take zip_with]. now rewrite IH.
Qed.

End Tables.

(** C5: the width of every column of [TableWithOptions] is the larger of
    the length of its header and of the lengths of all cells at its index;
    a row with fewer cells than headers is rendered without a panic, its
    cells matched to the columns by index; the cells beyond the number of
    headers neither widen a column nor add one: the widths and every row
    of the text are those of the rows cut to the number of headers. *)
Theorem TableWithOptions_column_widths (headers : list string)
    (rows : list (list string)) (opts : TerminalOptions) :
  exists widths,
    colWidths headers rows = Ok widths
    /\ length widths = length headers
    /\ (forall i header, headers !! i = Some header ->
                         widths !! i = Some (columnWidth i header rows))
    /\ TableWithOptions headers rows opts
       = Ok (match headers with
             | [] => ""%string
             | _ => tableText widths headers rows
             end)
    /\ (forall row, tableRow widths row = tableRow widths (take (length headers) row))
    /\ colWidths headers (take (length headers) <$> rows) = Ok widths.
Proof.
  destruct (colWidths_spec headers rows) as (widths & Hwidths & Hlen & Hcol).
  exists widths. split; [exact Hwidths | split; [exact Hlen | split; [exact Hcol|]]].
  pose proof Hwidths as Hfold. rewrite colWidths_fold in Hfold.
  injection Hfold as Hfold.
  split; [|split].
  - destruct headers as [|header headers]; [reflexivity|].
    rewrite TableWithOptions_text by discriminate. now rewrite Hfold.
  - intros row. now rewrite <- Hlen, tableRow_take.
  - rewrite colWidths_fold, <- Hfold. f_equal.
    rewrite <- (length_fmap len headers). apply foldl_widenRow_take.
Qed.

(** ** Tree views *)

Section Trees.

(** Induction on an item with the property for all its children. *)
Lemma TreeItem_children_ind (P : TreeItem -> Prop) :
  (forall label value children last,
      Forall P children -> P (mkTreeItem label value children last)) ->
  forall item, P item.
Proof.
  intros Hstep. fix IH 1. intros [label value children last].
  apply Hstep. induction children as [|child children IHc].
  - constructor.
  - constructor; [apply IH | exact IHc].
Qed.

Lemma spec_drawItem_unfold (prefix : string) (lastSibling : bool)
    (label value : string) (children : list TreeItem) (last : bool) :
  spec_drawItem prefix lastSibling (mkTreeItem label value children last)
  = prefix +:+ (if lastSibling then "└─ " else "├─ ")
    +:+ spec_itemText label value +:+ NL
    +:+ spec_drawItems (prefix +:+ (if lastSibling then "   " else "│  ")) children.
Proof.
  cbn [spec_drawItem]. do 4 f_equal.
  induction children as [|child children IH]; [reflexivity|].
  cbn [spec_drawItems]. now rewrite IH.
Qed.

Lemma loop_from_cons {A S : Type} (body : Z -> A -> S -> S) (i : Z) (x : A)
    (l : list A) (s : S) :
  loop_from body i (x :: l) s = loop_from body (i + 1) l (body i x s).
Proof. reflexivity. Qed.

Lemma renderTreeItem_unfold (n : Z) (prefix : string) (i : Z)
    (label value : string) (children : list TreeItem) (last : bool) (b : Builder) :
  renderTreeItem n prefix i (mkTreeItem label value children last) b
  = renderTreeItems
      (b +:+ prefix +:+ (if i =? n - 1 then "└─ " else "├─ ")
         +:+ spec_itemText label value +:+ NL)
      children
      (prefix +:+ (if i =? n - 1 then "   " else "│  ")).
Proof.
  cbn [renderTreeItem]. fold (renderTreeItems).
  set (childPrefix := if i =? n - 1 then "   "%string else "│  "%string).
  set (itemPrefix := if i =? n - 1 then "└─ "%string else "├─ "%string).
  replace (if i =? n - 1 then ("└─ "%string, "   "%string) else ("├─ "%string, "│  "%string))
    with (itemPrefix, childPrefix) by (subst itemPrefix childPrefix; now destruct (i =? n - 1)).
  cbv zeta. unfold WriteString.
  match goal with
  | |- context [ ?t +:+ NL ] =>
      match t with
      | context [ negb ] =>
          assert (Hb1 : t +:+ NL
                        = b +:+ prefix +:+ itemPrefix
                          +:+ spec_itemText label value +:+ NL)
      end
  end.
  { unfold spec_itemText. destruct (String.eqb value "").
    - cbn [negb]. now rewrite !str_app_assoc, str_app_nil.
    - cbn [negb]. now rewrite !str_app_assoc. }
  rewrite Hb1. clear Hb1.
  destruct children as [|child children]; [reflexivity|].
  assert (Hpos : (llen (child :: children) >? 0) = true).
  { apply Z.gtb_lt. unfold llen. simpl. lia. }
  now rewrite Hpos.
Qed.

Lemma llen_cons {A : Type} (x : A) (l : list A) : llen (x :: l) = 1 + llen l.
Proof. unfold llen. simpl. lia. Qed.

Lemma last_index_is_nil {A : Type} (x : A) (rest : list A) (i n : Z) :
  i + llen (x :: rest) = n -> (i =? n - 1) = is_nil rest.
Proof.
  rewrite llen_cons. intros Hn. destruct rest as [|y rest]; cbn [is_nil].
  - change (llen (@nil A)) with 0 in Hn. apply Z.eqb_eq. lia.
  - rewrite llen_cons in Hn. pose proof (llen_nonneg rest). apply Z.eqb_neq. lia.
Qed.

(** The loop over the siblings draws them as the specification says, when
    each of them is drawn so. *)
Lemma render_draw_items (items : list TreeItem) :
  Forall (fun item => forall n prefix i b,
              renderTreeItem n prefix i item b
              = b +:+ spec_drawItem prefix (i =? n - 1) item) items ->
  forall prefix n i b,
    i + llen items = n ->
    loop_from (renderTreeItem n prefix) i items b
    = b +:+ spec_drawItems prefix items.
Proof.
  induction 1 as [|item rest Hitem _ IH]; intros prefix n i b Hn.
  - cbn [loop_from spec_drawItems]. now rewrite str_app_empty_r.
  - rewrite loop_from_cons, Hitem, IH by (rewrite llen_cons in Hn; lia).
    cbn [spec_drawItems].
    rewrite (last_index_is_nil item rest i n Hn). now rewrite str_app_assoc.
Qed.

Lemma render_draw_item (item : TreeItem) :
  forall n prefix i b,
    renderTreeItem n prefix i item b
    = b +:+ spec_drawItem prefix (i =? n - 1) item.
Proof.
  induction item as [label value children last IH] using TreeItem_children_ind.
  intros n prefix i b.
  rewrite renderTreeItem_unfold, spec_drawItem_unfold. unfold renderTreeItems.
  rewrite (render_draw_items children IH) by lia.
  now rewrite !str_app_assoc.
Qed.

(** The renderer draws the tree of the specification. *)
Lemma renderTreeItems_draws (b : Builder) (items : list TreeItem) (prefix : string) :
  renderTreeItems b items prefix = b +:+ spec_drawItems prefix items.
Proof.
  unfold renderTreeItems. apply render_draw_items; [|lia].
  apply Forall_forall. intros item _. apply render_draw_item.
Qed.

Lemma is_nil_map {A B : Type} (f : A -> B) (l : list A) : is_nil (map f l) = is_nil l.
Proof. now destruct l. Qed.

Lemma spec_drawItems_eraseLast (items : list TreeItem) :
  Forall (fun item => forall prefix lastSibling,
              spec_drawItem prefix lastSibling (eraseLast item)
              = spec_drawItem prefix lastSibling item) items ->
  forall prefix, spec_drawItems prefix (map eraseLast items) = spec_drawItems prefix items.
Proof.
  induction 1 as [|item rest Hitem _ IH]; intros prefix; [reflexivity|].
  cbn [map spec_drawItems]. now rewrite is_nil_map, Hitem, IH.
Qed.

(** The drawing does not read the [Last] fields. *)
Lemma spec_drawItem_eraseLast (item : TreeItem) :
  forall prefix lastSibling,
    spec_drawItem prefix lastSibling (eraseLast item)
    = spec_drawItem prefix lastSibling item.
Proof.
  induction item as [label value children last IH] using TreeItem_children_ind.
  intros prefix lastSibling. cbn [eraseLast].
  rewrite !spec_drawItem_unfold. now rewrite (spec_drawItems_eraseLast children IH).
Qed.

End Trees.

(** C9: the output of the tree view does not depend on the [Last] fields
    set by the caller.  Two sequences of items that differ only in [Last]
    fields, at any depth, give the same output, for any options: the
    renderer draws the tree of the specification, in which the last
    sibling of each level, found by its position, has "└─ " and the
    continuation "   ", and every other sibling "├─ " and "│  ". *)
Theorem TreeView_ignores_Last (items1 items2 : list TreeItem)
    (opts1 opts2 : TerminalOptions) :
  differ_only_in_Last items1 items2 ->
  TreeViewWithOptions items1 opts1 = TreeViewWithOptions items2 opts2
  /\ TreeViewWithOptions items1 opts1 = TrimRight_nl (spec_drawItems "" items1).
Proof.
  intros Hsame. unfold TreeViewWithOptions.
  rewrite !renderTreeItems_draws, !str_app_nil. split; [|reflexivity].
  assert (Herase : forall items,
             spec_drawItems "" (map eraseLast items) = spec_drawItems "" items).
  { intros items. apply spec_drawItems_eraseLast.
    apply Forall_forall. intros item _. apply spec_drawItem_eraseLast. }
  rewrite <- (Herase items1), <- (Herase items2).
  unfold differ_only_in_Last in Hsame. now rewrite Hsame.
Qed.

(** Two trees that differ in the [Last] field of every item. *)
Lemma TreeView_ignores_Last_witness :
  let items1 :=
    [mkTreeItem "Root" "" [mkTreeItem "Child 1" "value1" [] false;
                           mkTreeItem "Child 2" "value2" [] true] false;
     mkTreeItem "Tail" "t" [] true] in
  let items2 :=
    [mkTreeItem "Root" "" [mkTreeItem "Child 1" "value1" [] true;
                           mkTreeItem "Child 2" "value2" [] false] true;
     mkTreeItem "Tail" "t" [] false] in
  differ_only_in_Last items1 items2
  /\ TreeViewWithOptions items1 DefaultOptions
     = ("├─ Root" +:+ NL +:+ "│  ├─ Child 1: value1" +:+ NL
        +:+ "│  └─ Child 2: value2" +:+ NL +:+ "└─ Tail: t")%string
  /\ (TreeViewWithOptions items1 DefaultOptions
      = TreeViewWithOptions items2 (mkTerminalOptions false false 40 true false)
      /\ TreeViewWithOptions items1 DefaultOptions
         = TrimRight_nl (spec_drawItems "" items1)).
Proof.
  intros items1 items2.
  assert (Hsame : differ_only_in_Last items1 items2) by reflexivity.
  split; [exact Hsame | split; [reflexivity|]].
  exact (TreeView_ignores_Last items1 items2 DefaultOptions
           (mkTerminalOptions false false 40 true false) Hsame).
Defined.

(** ** Bar charts *)

Section BarCharts.

Lemma foldr_max_perm (w : Z) (l l' : list Z) :
  l ≡ₚ l' -> foldr Z.max w l = foldr Z.max w l'.
Proof.
  induction 1 as [|x l l' _ IH|x y l|l l' l'' _ IH1 _ IH2]; cbn [foldr].
  - reflexivity.
  - now rewrite IH.
  - lia.
  - now rewrite IH1.
Qed.

(** The maxima of the first loop, as maxima over the values and over the
    label lengths. *)
Lemma chartMaxima_from (entries : list (string * Z)) :
  forall maxValue maxLabelLen,
    foldl (fun '(maxValue, maxLabelLen) '(label, value) =>
             (if value >? maxValue then value else maxValue,
              if len label >? maxLabelLen then len label else maxLabelLen))
          (maxValue, maxLabelLen) entries
    = (foldr Z.max maxValue (snd <$> entries),
       foldr Z.max maxLabelLen ((fun entry => len entry.1) <$> entries)).
Proof.
  induction entries as [|[label value] entries IH]; intros maxValue maxLabelLen;
    [reflexivity|].
  cbn [foldl fmap list_fmap foldr fst snd]. rewrite IH.
  rewrite <- !foldr_max_start. f_equal; f_equal.
  - destruct (Z.gtb_spec value maxValue); lia.
  - destruct (Z.gtb_spec (len label) maxLabelLen); lia.
Qed.

(** The first loop does not depend on the order of the entries. *)
Lemma chartMaxima_perm (entries entries' : list (string * Z)) :
  entries ≡ₚ entries' -> chartMaxima entries = chartMaxima entries'.
Proof.
  intros Hperm. unfold chartMaxima. rewrite !chartMaxima_from.
  f_equal; apply foldr_max_perm; now apply fmap_Permutation.
Qed.





























End BarCharts.




(** ** The functions that always return *)

Section Totality.

Lemma titledBox_total (title content : string) : is_Ok (titledBox title content).
Proof.
  unfold titledBox. cbv zeta.
  set (lines := Split_nl content).
  set (maxLen := maxLineLen (len title + borderPadding) lines).
  assert (Hstart : len title + 2 <= maxLen) by apply maxLineLen_ge_start.
  pose proof (len_nonneg title) as Htitle.
  unfold borderPadding.
  rewrite !(Repeat_nonneg "═" (maxLen + 2)) by lia.
  rewrite (Repeat_nonneg " " (maxLen - len title)) by lia.
  cbn [mbind result_bind]. unfold range.
  rewrite (range_from_appends
             (fun _ line => "║ " +:+ line
                            +:+ repeat_nat " " (Z.to_nat (maxLen - len line))
                            +:+ " ║" +:+ NL)).
  - cbn [mbind result_bind]. now eexists.
  - intros j line b' Hj.
    assert (Hle : len line <= maxLen).
    { apply maxLineLen_ge. apply list_elem_of_lookup. now exists j. }
    rewrite (Repeat_nonneg " " (maxLen - len line)) by lia. reflexivity.
Qed.

(** [Box] and [BoxWithOptions] return for every title and content. *)
Lemma BoxWithOptions_total (title content : string) (opts : TerminalOptions) :
  is_Ok (BoxWithOptions title content opts).
Proof.
  unfold BoxWithOptions. destruct (String.eqb title "").
  - rewrite simpleBox_text. now eexists.
  - apply titledBox_total.
Qed.

(** [Table] and [TableWithOptions] return for every headers and rows. *)
Lemma TableWithOptions_total (headers : list string) (rows : list (list string))
    (opts : TerminalOptions) :
  is_Ok (TableWithOptions headers rows opts).
Proof.
  destruct headers as [|header headers].
  - now exists ""%string.
  - rewrite TableWithOptions_text by discriminate. now eexists.
Qed.

End Totality.

(** ** The examples of the tests and of the README *)

Section Examples.

Let textOptions : TerminalOptions := mkTerminalOptions true false 80 false true.
Let env256 : Env := mkEnv (fun name => if String.eqb name "TERM" then "xterm-256color" else "")%string.

Example Box_simple :
  Box "" "Simple content"
  = Ok ("┌────────────────┐" +:+ NL +:+
        "│ Simple content │" +:+ NL +:+
        "└────────────────┘")%string.
Proof. reflexivity. Qed.

Example Box_titled :
  Box "Test" "Content"
  = Ok ("╔═════════╗" +:+ NL +:+
        "║ Test    ║" +:+ NL +:+
        "╠═════════╣" +:+ NL +:+
        "║ Content ║" +:+ NL +:+
        "╚═════════╝")%string.
Proof. reflexivity. Qed.

Example Table_ragged :
  Table ["Name"; "Value"]%string [["Test"; "123"]; ["Example"]; ["a"; "b"; "c"]]%string
  = Ok ("│ Name    │ Value │" +:+ NL +:+
        "├─────────┼───────┤" +:+ NL +:+
        "│ Test    │ 123   │" +:+ NL +:+
        "│ Example │" +:+ NL +:+
        "│ a       │ b     │")%string.
Proof. reflexivity. Qed.

Example ProgressBar_half :
  ProgressBar 50 100 60
  = Ok "[████████████████████░░░░░░░░░░░░░░░░░░░░] 50.0% (50/100)"%string.
Proof. now vm_compute. Qed.

Example ProgressBar_over :
  ProgressBarWithOptions 150 100 30 textOptions = Ok "[##########] 100.0% (150/100)"%string.
Proof. now vm_compute. Qed.

Example ProgressBar_slightly_negative :
  ProgressBarWithOptions (-1) 100 30 textOptions = Ok "[----------] -1.0% (-1/100)"%string.
Proof. now vm_compute. Qed.

Example CreateConfidenceBar_half :
  CreateConfidenceBar env256 0.5 textOptions = "[#####-----]"%string
  /\ CreateConfidenceBar env256 0.5 DefaultOptions = "█████░░░░░"%string.
Proof. split; now vm_compute. Qed.

Example GetEmoji_success :
  GetEmoji env256 "success" textOptions = "[OK]"%string
  /\ GetEmoji env256 "success" DefaultOptions = "✅"%string.
Proof. split; now vm_compute. Qed.

Example TreeView_readme :
  TreeView [mkTreeItem "Root" ""
              [mkTreeItem "Child 1" "value1" [] false;
               mkTreeItem "Child 2" "value2" [] false] false]
  = ("└─ Root" +:+ NL +:+
     "   ├─ Child 1: value1" +:+ NL +:+
     "   └─ Child 2: value2")%string.
Proof. reflexivity. Qed.

Example formatStringValue_escapes :
  formatStringValue (fun r => r) ("say " +:+ String dquote "hi" +:+ String dquote "")
  = Ok (String dquote ("say " +:+ String backslash (String dquote "hi")
                       +:+ String backslash (String dquote (String dquote "")))).
Proof. reflexivity. Qed.

End Examples.
